(** * DiceRenderer: the per-die visual state machine and layout synchronizer

    A shallow embedding of [src/DiceRenderer/DiceRenderer.ts].  The file holds
    two variants of the renderer, one built on an orthographic camera and one
    on a perspective camera.  The three state classes and [setState] are the
    same text in both; [updateTransform], [tick] and the field initialisers
    differ and are embedded once per variant, in [Module Orthographic] and
    [Module Perspective].

    THREE and gsap are libraries, not code of the repository.  A camera is
    taken as the function [Vector3.unproject] applies for it, and every call
    into gsap is recorded, in order, in a trace carried by the die. *)

From Stdlib Require Import QArith Qround ZArith List Bool String Lia Lqa.
Import ListNotations.

(** ** JavaScript numbers

    A finite number is modelled by an exact rational; every operation reduces
    its result to lowest terms, so that equal results are equal terms.
    Rounding to binary64 is not modelled.  The infinities and NaN are kept,
    with the IEEE rules for them, because the synchronizer divides by the
    viewport size without testing it. *)

Inductive number : Type :=
| Fin (q : Q)
| PosInf
| NegInf
| NaN.

Module Number.

Definition finite (a : number) : bool :=
  match a with Fin _ => true | _ => false end.

Definition neg (a : number) : number :=
  match a with
  | Fin q => Fin (Qred (- q))
  | PosInf => NegInf
  | NegInf => PosInf
  | NaN => NaN
  end.

Definition add (a b : number) : number :=
  match a, b with
  | Fin p, Fin q => Fin (Qred (p + q))
  | Fin _, PosInf | PosInf, Fin _ | PosInf, PosInf => PosInf
  | Fin _, NegInf | NegInf, Fin _ | NegInf, NegInf => NegInf
  | _, _ => NaN
  end.

Definition sub (a b : number) : number := add a (neg b).

(** The sign of an infinite product or quotient. *)
Definition signed_inf (c : comparison) (positive : bool) : number :=
  match c with
  | Eq => NaN
  | Gt => if positive then PosInf else NegInf
  | Lt => if positive then NegInf else PosInf
  end.

Definition mul (a b : number) : number :=
  match a, b with
  | Fin p, Fin q => Fin (Qred (p * q))
  | Fin p, PosInf | PosInf, Fin p => signed_inf (p ?= 0) true
  | Fin p, NegInf | NegInf, Fin p => signed_inf (p ?= 0) false
  | PosInf, PosInf | NegInf, NegInf => PosInf
  | PosInf, NegInf | NegInf, PosInf => NegInf
  | _, _ => NaN
  end.

(** [a / b].  A finite nonzero number over zero is an infinity of the sign
    of the numerator, zero over zero is NaN (the zero is taken as +0, the
    only zero a layout rectangle reports). *)
Definition div (a b : number) : number :=
  match a, b with
  | Fin p, Fin q =>
      if Qeq_bool q 0 then signed_inf (p ?= 0) true else Fin (Qred (p / q))
  | Fin _, PosInf | Fin _, NegInf => Fin 0
  | PosInf, Fin q => if Qle_bool 0 q then PosInf else NegInf
  | NegInf, Fin q => if Qle_bool 0 q then NegInf else PosInf
  | _, _ => NaN
  end.

(** [a <= b] and [a < b]; a comparison with NaN is false. *)
Definition leb (a b : number) : bool :=
  match a, b with
  | Fin p, Fin q => Qle_bool p q
  | NegInf, Fin _ | NegInf, PosInf | Fin _, PosInf => true
  | NegInf, NegInf | PosInf, PosInf => true
  | _, _ => false
  end.

Definition ltb (a b : number) : bool :=
  match a, b with
  | Fin p, Fin q => negb (Qle_bool q p)
  | NegInf, Fin _ | NegInf, PosInf | Fin _, PosInf => true
  | _, _ => false
  end.

(** The integer part of a rational, rounding toward zero. *)
Definition trunc (q : Q) : Z := Z.quot (Qnum q) (Zpos (Qden q)).

(** [a % b]: the remainder of the truncated division, with the sign of the
    dividend. *)
Definition rem (a b : number) : number :=
  match a, b with
  | Fin p, Fin q =>
      if Qeq_bool q 0 then NaN
      else Fin (Qred (p - q * inject_Z (trunc (p / q))))
  | Fin p, PosInf | Fin p, NegInf => Fin p
  | _, _ => NaN
  end.

End Number.

Declare Scope number_scope.
Delimit Scope number_scope with num.
Bind Scope number_scope with number.
Notation "a + b" := (Number.add a b) : number_scope.
Notation "a - b" := (Number.sub a b) : number_scope.
Notation "a * b" := (Number.mul a b) : number_scope.
Notation "a / b" := (Number.div a b) : number_scope.
Notation "- a" := (Number.neg a) : number_scope.
Notation "a 'mod' b" := (Number.rem a b) : number_scope.

(** [Math.PI] is the binary64 number nearest to pi; this is its exact value. *)
Definition Math_PI : number := Fin (884279719003555 # 281474976710656).

(** ** The THREE values the renderer reads and writes *)

Module Vector3.

Record t : Type := make { x : number; y : number; z : number }.

(** [new THREE.Vector3] without arguments. *)
Definition zero : t := make (Fin 0) (Fin 0) (Fin 0).

Definition multiplyVectors (a b : t) : t :=
  make (x a * x b)%num (y a * y b)%num (z a * z b)%num.

Definition addVectors (a b : t) : t :=
  make (x a + x b)%num (y a + y b)%num (z a + z b)%num.

Definition finite (v : t) : bool :=
  Number.finite (x v) && Number.finite (y v) && Number.finite (z v).

End Vector3.

Module Euler.

Record t : Type := make { x : number; y : number; z : number; order : string }.

Definition with_y (v : number) (e : t) : t := make (x e) v (z e) (order e).

(** [set(x, y, z)] keeps the axis order. *)
Definition set (x' y' z' : number) (e : t) : t := make x' y' z' (order e).

(** [reorder] re-expresses a rotation in another axis order.  The renderer
    applies it only to the rotation of a fresh mesh, the identity, whose
    angles are 0 in every order; the angles are therefore left as they
    are. *)
Definition reorder (newOrder : string) (e : t) : t :=
  make (x e) (y e) (z e) newOrder.

End Euler.

Module Mesh.

Record t : Type := make {
  position : Vector3.t;
  rotation : Euler.t;
  scale : Vector3.t
}.

Definition with_position (p : Vector3.t) (m : t) : t :=
  make p (rotation m) (scale m).
Definition with_rotation (r : Euler.t) (m : t) : t :=
  make (position m) r (scale m).
Definition with_scale (s : Vector3.t) (m : t) : t :=
  make (position m) (rotation m) s.

(** [new THREE.Mesh(geometry, material)]: at the origin, not rotated, at
    scale 1. *)
Definition new : t :=
  make Vector3.zero (Euler.make (Fin 0) (Fin 0) (Fin 0) "XYZ")
       (Vector3.make (Fin 1) (Fin 1) (Fin 1)).

End Mesh.

(** ** Constants *)

Definition IDLE_ROTATE_SPEED : number := Fin (Qred 0.005).
Definition DRAG_ROTATE_SPEED : number := Fin (Qred 0.04).
Definition SCALE : number := Fin (Qred 0.4).

(** [Math.PI * 2], one full turn. *)
Definition FULL_TURN : number := (Math_PI * Fin 2)%num.

(** ** The die and its three states *)

(** The singletons of [DiceStates]. *)
Inductive DiceState : Type := IdleState | HoverState | DragState.

(** The objects handed to gsap. *)
Inductive Target : Type := dice_scale | dice_position | mesh_rotation.

(** The property bags handed to [gsap.to]: [{x, y, z}], [{y}] and
    [{y: "+=" + delta}]. *)
Inductive Vars : Type :=
| to_xyz (x y z : number)
| to_y (y : number)
| by_y (delta : number).

(** What a die does that is visible outside its own fields: the calls of
    [setState] into the state objects and the calls into gsap. *)
Inductive Event : Type :=
| call_exit (s : DiceState)
| call_enter (s : DiceState)
| gsap_to (target : Target) (vars : Vars) (duration : number) (ease : string)
| gsap_killTweensOf (target : Target).

Record DiceCrystal : Type := mkDice {
  state : DiceState;
  isHovered : bool;
  isDragged : bool;
  mesh : Mesh.t;
  position : Vector3.t;
  _position : Vector3.t;
  scale : Vector3.t;
  _scale : Vector3.t;
  trace : list Event
}.

Definition with_state (s : DiceState) (d : DiceCrystal) : DiceCrystal :=
  mkDice s (isHovered d) (isDragged d) (mesh d) (position d) (_position d)
         (scale d) (_scale d) (trace d).
Definition with_isHovered (b : bool) (d : DiceCrystal) : DiceCrystal :=
  mkDice (state d) b (isDragged d) (mesh d) (position d) (_position d)
         (scale d) (_scale d) (trace d).
Definition with_isDragged (b : bool) (d : DiceCrystal) : DiceCrystal :=
  mkDice (state d) (isHovered d) b (mesh d) (position d) (_position d)
         (scale d) (_scale d) (trace d).
Definition with_mesh (m : Mesh.t) (d : DiceCrystal) : DiceCrystal :=
  mkDice (state d) (isHovered d) (isDragged d) m (position d) (_position d)
         (scale d) (_scale d) (trace d).
Definition with_scale (s : Vector3.t) (d : DiceCrystal) : DiceCrystal :=
  mkDice (state d) (isHovered d) (isDragged d) (mesh d) (position d)
         (_position d) s (_scale d) (trace d).
Definition with_position (p : Vector3.t) (d : DiceCrystal) : DiceCrystal :=
  mkDice (state d) (isHovered d) (isDragged d) (mesh d) p (_position d)
         (scale d) (_scale d) (trace d).
Definition with__position (p : Vector3.t) (d : DiceCrystal) : DiceCrystal :=
  mkDice (state d) (isHovered d) (isDragged d) (mesh d) (position d) p
         (scale d) (_scale d) (trace d).
Definition with__scale (s : Vector3.t) (d : DiceCrystal) : DiceCrystal :=
  mkDice (state d) (isHovered d) (isDragged d) (mesh d) (position d)
         (_position d) (scale d) s (trace d).
Definition emit (e : Event) (d : DiceCrystal) : DiceCrystal :=
  mkDice (state d) (isHovered d) (isDragged d) (mesh d) (position d)
         (_position d) (scale d) (_scale d) (trace d ++ [e]).

(** [dice.mesh.rotation.y]. *)
Definition rotation_y (d : DiceCrystal) : number :=
  Euler.y (Mesh.rotation (mesh d)).
Definition with_rotation_y (v : number) (d : DiceCrystal) : DiceCrystal :=
  with_mesh (Mesh.with_rotation (Euler.with_y v (Mesh.rotation (mesh d)))
                                (mesh d)) d.

Local Open Scope string_scope.
Local Open Scope list_scope.

Definition IdleState_enter (dice : DiceCrystal) : DiceCrystal :=
  emit (gsap_to dice_scale (to_xyz (Fin 1) (Fin 1) (Fin 1))
                (Fin (Qred 0.4)) "power2.out") dice.

Definition IdleState_exit (dice : DiceCrystal) : DiceCrystal := dice.

Definition HoverState_enter (dice : DiceCrystal) : DiceCrystal :=
  emit (gsap_to dice_scale
                (to_xyz (Fin (Qred 1.1)) (Fin (Qred 1.1)) (Fin (Qred 1.1)))
                (Fin (Qred 0.4)) "power2.out") dice.

Definition HoverState_exit (dice : DiceCrystal) : DiceCrystal :=
  emit (gsap_to dice_position (to_y (Fin 0)) (Fin (Qred 0.2)) "power2.out") dice.

Definition DragState_enter (dice : DiceCrystal) : DiceCrystal :=
  let dice := emit (gsap_killTweensOf mesh_rotation) dice in
  let dice := emit (gsap_killTweensOf dice_scale) dice in
  emit (gsap_to dice_scale
                (to_xyz (Fin (Qred 0.9)) (Fin (Qred 0.9)) (Fin (Qred 0.9)))
                (Fin (Qred 0.2)) "power2.out") dice.

Definition DragState_exit (dice : DiceCrystal) : DiceCrystal :=
  let dice := emit (gsap_killTweensOf mesh_rotation) dice in
  let dice := emit (gsap_killTweensOf dice_scale) dice in
  emit (gsap_to mesh_rotation (by_y FULL_TURN) (Fin (Qred 0.8)) "power2.out")
       dice.

(** [s.enter(dice)] and [s.exit(dice)], dispatched on the state object. *)
Definition enter (s : DiceState) (dice : DiceCrystal) : DiceCrystal :=
  let dice := emit (call_enter s) dice in
  match s with
  | IdleState => IdleState_enter dice
  | HoverState => HoverState_enter dice
  | DragState => DragState_enter dice
  end.

Definition exit (s : DiceState) (dice : DiceCrystal) : DiceCrystal :=
  let dice := emit (call_exit s) dice in
  match s with
  | IdleState => IdleState_exit dice
  | HoverState => HoverState_exit dice
  | DragState => DragState_exit dice
  end.

Definition setState (newState : DiceState) (dice : DiceCrystal) : DiceCrystal :=
  let dice := exit (state dice) dice in
  let dice := with_state newState dice in
  enter (state dice) dice.

Definition IdleState_update (dice : DiceCrystal) : DiceCrystal :=
  let dice :=
    with_rotation_y ((rotation_y dice + IDLE_ROTATE_SPEED) mod FULL_TURN)%num
                    dice in
  if isDragged dice then setState DragState dice
  else if isHovered dice then setState HoverState dice
  else dice.

Definition HoverState_update (dice : DiceCrystal) : DiceCrystal :=
  if isDragged dice then setState DragState dice
  else if negb (isHovered dice) then setState IdleState dice
  else dice.

Definition DragState_update (dice : DiceCrystal) : DiceCrystal :=
  let dice :=
    with_rotation_y ((rotation_y dice + DRAG_ROTATE_SPEED) mod FULL_TURN)%num
                    dice in
  if negb (isDragged dice) then setState IdleState dice
  else dice.

(** [dice.state.update(dice)]. *)
Definition update (dice : DiceCrystal) : DiceCrystal :=
  match state dice with
  | IdleState => IdleState_update dice
  | HoverState => HoverState_update dice
  | DragState => DragState_update dice
  end.

(** ** What a die reads from its host when it synchronizes *)

Record DOMRect : Type := mkRect {
  left : number;
  top : number;
  width : number;
  height : number
}.

(** A camera, as far as the renderer uses one: the map that
    [Vector3.unproject] applies for it. *)
Record Camera : Type := mkCamera { unproject : Vector3.t -> Vector3.t }.

(** [diceDiv.getBoundingClientRect()], [parentGrid.canvas
    .getBoundingClientRect()] and [parentGrid.camera] at the time of a call. *)
Record Host : Type := mkHost {
  diceDiv_rect : DOMRect;
  canvas_rect : DOMRect;
  camera : Camera
}.

(** ** The orthographic variant *)

Module Orthographic.

(** The field initialisers of [DiceCrystal] and the mesh its constructor
    builds. *)
Definition fields : DiceCrystal :=
  {| state := IdleState;
     isHovered := false;
     isDragged := false;
     mesh := Mesh.new;
     position := Vector3.zero;
     _position := Vector3.zero;
     scale := Vector3.zero;
     _scale := Vector3.zero;
     trace := [] |}.

Definition xNDC (host : Host) : number :=
  let rect := diceDiv_rect host in
  let gridRect := canvas_rect host in
  (((left rect + width rect / Fin 2) - left gridRect) / width gridRect
   * Fin 2 - Fin 1)%num.

Definition yNDC (host : Host) : number :=
  let rect := diceDiv_rect host in
  let gridRect := canvas_rect host in
  (- (((top rect + height rect / Fin 2) - top gridRect) / height gridRect
      * Fin 2 - Fin 1))%num.

Definition updateTransform (host : Host) (dice : DiceCrystal) : DiceCrystal :=
  let rect := diceDiv_rect host in
  let worldPosition :=
    unproject (camera host) (Vector3.make (xNDC host) (yNDC host) (Fin 0)) in
  let scaleFactor := (width rect * SCALE)%num in
  let dice :=
    with__scale (Vector3.make scaleFactor scaleFactor scaleFactor) dice in
  with__position
    (Vector3.make (Vector3.x worldPosition) (Vector3.y worldPosition)
                  (Vector3.z (_position dice)))
    dice.

Definition tick (dice : DiceCrystal) : DiceCrystal :=
  let dice := update dice in
  let dice :=
    with_mesh (Mesh.with_scale
                 (Vector3.multiplyVectors (_scale dice) (scale dice))
                 (mesh dice)) dice in
  let dice :=
    with_mesh (Mesh.with_position
                 (Vector3.addVectors (_position dice) (position dice))
                 (mesh dice)) dice in
  with__position
    (Vector3.make (Vector3.x (_position dice)) (Vector3.y (_position dice))
                  (if isHovered dice || isDragged dice
                   then Fin 400 else Fin 0))
    dice.

(** [new DiceCrystal(parentGrid, diceDiv, geometry)]. *)
Definition new (host : Host) : DiceCrystal :=
  let dice := fields in
  let dice :=
    with_mesh (Mesh.with_rotation
                 (Euler.reorder "ZXY" (Mesh.rotation (mesh dice)))
                 (mesh dice)) dice in
  let dice :=
    with_mesh (Mesh.with_rotation
                 (Euler.set (Fin (Qred 0.1)) (Fin 0) (Fin (Qred 0.3))
                            (Mesh.rotation (mesh dice)))
                 (mesh dice)) dice in
  let dice := setState IdleState dice in
  updateTransform host dice.

End Orthographic.

(** ** The perspective variant *)

Module Perspective.

Definition fields : DiceCrystal :=
  {| state := IdleState;
     isHovered := false;
     isDragged := false;
     mesh := Mesh.new;
     position := Vector3.zero;
     _position := Vector3.zero;
     scale := Vector3.make (Fin 1) (Fin 1) (Fin 1);
     _scale := Vector3.make (Fin 1) (Fin 1) (Fin 1);
     trace := [] |}.

Definition sc : number := Fin 200.

Definition xNDC (host : Host) : number :=
  let rect := diceDiv_rect host in
  let gridRect := canvas_rect host in
  (((left rect + width rect / Fin 2) - left gridRect) / width gridRect
   * sc - Fin 1)%num.

Definition yNDC (host : Host) : number :=
  let rect := diceDiv_rect host in
  let gridRect := canvas_rect host in
  (- (((top rect + height rect / Fin 2) - top gridRect) / height gridRect
      * sc - Fin 1))%num.

(** The lines that set [_scale] are commented out in this variant. *)
Definition updateTransform (host : Host) (dice : DiceCrystal) : DiceCrystal :=
  let worldPosition :=
    unproject (camera host) (Vector3.make (xNDC host) (yNDC host) (Fin 0)) in
  with__position
    (Vector3.make (Vector3.x worldPosition) (Vector3.y worldPosition)
                  (Vector3.z (_position dice)))
    dice.

(** The line that moves a selected die forward is commented out in this
    variant. *)
Definition tick (dice : DiceCrystal) : DiceCrystal :=
  let dice := update dice in
  let dice :=
    with_mesh (Mesh.with_scale
                 (Vector3.multiplyVectors (_scale dice) (scale dice))
                 (mesh dice)) dice in
  with_mesh (Mesh.with_position
               (Vector3.addVectors (_position dice) (position dice))
               (mesh dice)) dice.

(** [new DiceCrystal(parentGrid, diceDiv, geometry, texture)]. *)
Definition new (host : Host) : DiceCrystal :=
  let dice := fields in
  let dice :=
    with_mesh (Mesh.with_rotation
                 (Euler.reorder "ZXY" (Mesh.rotation (mesh dice)))
                 (mesh dice)) dice in
  let dice :=
    with_mesh (Mesh.with_rotation
                 (Euler.set (Fin (Qred 0.1)) (Fin 0) (Fin (Qred 0.3))
                            (Mesh.rotation (mesh dice)))
                 (mesh dice)) dice in
  let dice := setState IdleState dice in
  updateTransform host dice.

End Perspective.

(** ** Sample hosts *)

(** An orthographic camera centred on the origin whose frustum is [w] wide and
    [h] high sends the device square onto that rectangle. *)
Definition flatCamera (w h : number) : Camera :=
  mkCamera (fun v => Vector3.make (Vector3.x v * (w / Fin 2))%num
                                  (Vector3.y v * (h / Fin 2))%num
                                  (Vector3.z v)).

(** A 100 by 100 element at the top left corner of an 800 by 600 canvas. *)
Definition sampleHost : Host :=
  mkHost (mkRect (Fin 0) (Fin 0) (Fin 100) (Fin 100))
         (mkRect (Fin 0) (Fin 0) (Fin 800) (Fin 600))
         (flatCamera (Fin 800) (Fin 600)).

(** A 100 by 100 element in the middle of the same canvas. *)
Definition centredHost : Host :=
  mkHost (mkRect (Fin 350) (Fin 250) (Fin 100) (Fin 100))
         (mkRect (Fin 0) (Fin 0) (Fin 800) (Fin 600))
         (flatCamera (Fin 800) (Fin 600)).


(** A die that was hovered and dragged for one frame and has just been
    released while the pointer is still over it. *)
Definition releasedDie : DiceCrystal :=
  with_isDragged false
    (Orthographic.tick
       (with_isDragged true (with_isHovered true
          (Orthographic.new sampleHost)))).

(** ** The formulas of the specification *)

(** In the words of the specification: the centre of a layout rectangle and
    the device coordinates of a point of the viewport. *)
Definition centerX (r : DOMRect) : number := (left r + width r / Fin 2)%num.
Definition centerY (r : DOMRect) : number := (top r + height r / Fin 2)%num.

Definition spec_ndcX (centerX viewportLeft viewportWidth : number) : number :=
  (((centerX - viewportLeft) / viewportWidth) * Fin 2 - Fin 1)%num.
Definition spec_ndcY (centerY viewportTop viewportHeight : number) : number :=
  (- (((centerY - viewportTop) / viewportHeight) * Fin 2 - Fin 1))%num.

(** The same with the factor the perspective variant uses. *)
Definition scaled_ndcX (k centerX viewportLeft viewportWidth : number) : number :=
  (((centerX - viewportLeft) / viewportWidth) * k - Fin 1)%num.
Definition scaled_ndcY (k centerY viewportTop viewportHeight : number) : number :=
  (- (((centerY - viewportTop) / viewportHeight) * k - Fin 1))%num.

(** ** Zero and finite sizes *)

Definition is_zero (a : number) : bool :=
  match a with Fin q => Qeq_bool q 0 | _ => false end.

Definition DOMRect_finite (r : DOMRect) : bool :=
  Number.finite (left r) && Number.finite (top r) &&
  Number.finite (width r) && Number.finite (height r).

(** ** The life of a die *)

Inductive Projection : Type := orthographic | perspective.

Definition new (v : Projection) : Host -> DiceCrystal :=
  match v with
  | orthographic => Orthographic.new
  | perspective => Perspective.new
  end.

Definition tick (v : Projection) : DiceCrystal -> DiceCrystal :=
  match v with
  | orthographic => Orthographic.tick
  | perspective => Perspective.tick
  end.

Definition updateTransform (v : Projection) : Host -> DiceCrystal -> DiceCrystal :=
  match v with
  | orthographic => Orthographic.updateTransform
  | perspective => Perspective.updateTransform
  end.

(** Everything that happens to a die once it is constructed: the render loop
    ticks it, an observer of the element or of the grid re-synchronizes it,
    the pointer handlers of the page set its flags, and the tweens started
    through gsap write the properties they animate. *)
Inductive Input : Type :=
| frame
| layout_changed (host : Host)
| set_isHovered (b : bool)
| set_isDragged (b : bool)
| animate_scale (s : Vector3.t)
| animate_position_y (y : number)
| animate_rotation_y (y : number).

Definition step (v : Projection) (d : DiceCrystal) (i : Input) : DiceCrystal :=
  match i with
  | frame => tick v d
  | layout_changed host => updateTransform v host d
  | set_isHovered b => with_isHovered b d
  | set_isDragged b => with_isDragged b d
  | animate_scale s => with_scale s d
  | animate_position_y y =>
      with_position (Vector3.make (Vector3.x (position d)) y
                                  (Vector3.z (position d))) d
  | animate_rotation_y y => with_rotation_y y d
  end.

Definition run (v : Projection) (inputs : list Input) (d : DiceCrystal)
  : DiceCrystal :=
  fold_left (step v) inputs d.

Definition lifetime (v : Projection) (host : Host) (inputs : list Input)
  : DiceCrystal :=
  run v inputs (new v host).

(** ** Reading a trace *)

(** The states on which [exit], and those on which [enter], was called. *)
Fixpoint exits (tr : list Event) : list DiceState :=
  match tr with
  | [] => []
  | call_exit s :: tr' => s :: exits tr'
  | _ :: tr' => exits tr'
  end.

Fixpoint enters (tr : list Event) : list DiceState :=
  match tr with
  | [] => []
  | call_enter s :: tr' => s :: enters tr'
  | _ :: tr' => enters tr'
  end.

(** The calls of [setState] in a trace, each as the state the die was in and
    the state that was asked for: [setState] calls [exit] on the first and
    [enter] on the second. *)
Definition setState_calls (tr : list Event) : list (DiceState * DiceState) :=
  combine (exits tr) (enters tr).

Definition is_gsap (e : Event) : Prop :=
  match e with
  | gsap_to _ _ _ _ | gsap_killTweensOf _ => True
  | call_exit _ | call_enter _ => False
  end.

Definition changes_state (c : DiceState * DiceState) : Prop := fst c <> snd c.

(** The calls of [setState] so far: the one of the constructor, from
    [IdleState] to [IdleState], then calls that change the state. *)
Definition well_traced (d : DiceCrystal) : Prop :=
  exists ex en,
    exits (trace d) = IdleState :: ex /\
    enters (trace d) = IdleState :: en /\
    Forall2 (fun a b => a <> b) ex en.

(** ** Invariants of the rotation and of the scale factor *)

(** The value of [FULL_TURN]. *)
Definition full_turn : Q := 884279719003555 # 140737488355328.

(** A die that is idle, neither hovered nor dragged, with its angle in
    [0, FULL_TURN). *)
Definition idle_within_a_turn (d : DiceCrystal) : Prop :=
  state d = IdleState /\ isHovered d = false /\ isDragged d = false /\
  Number.leb (Fin 0) (rotation_y d) = true /\
  Number.ltb (rotation_y d) FULL_TURN = true.

(** Inputs that leave the animated scale factor as it is and keep the base
    scale a number: no tween writes [dice.scale] and every layout rectangle
    has a finite width. *)
Definition scale_untouched (i : Input) : bool :=
  match i with
  | animate_scale _ => false
  | layout_changed host => Number.finite (width (diceDiv_rect host))
  | _ => true
  end.

Definition unit_scale : Vector3.t := Vector3.make (Fin 1) (Fin 1) (Fin 1).

(** The animated scale factor is still zero and the base scale is a
    number. *)
Definition scale_at_zero (d : DiceCrystal) : Prop :=
  scale d = Vector3.zero /\ Vector3.finite (_scale d) = true.

(** ** The transition table and what a trace holds *)

(** The state the flags select once the machine has followed them. *)
Definition settled (hovered dragged : bool) : DiceState :=
  if dragged then DragState else if hovered then HoverState else IdleState.

(** The five transitions the three [update] methods can ask for. *)
Definition table : list (DiceState * DiceState) :=
  [(IdleState, DragState); (IdleState, HoverState);
   (HoverState, DragState); (HoverState, IdleState);
   (DragState, IdleState)].

(** A sequence of calls of [setState] that starts in [s], follows the table,
    in which every call leaves the state the previous one entered, and that
    ends in [final]. *)
Fixpoint linked (s : DiceState) (calls : list (DiceState * DiceState))
         (final : DiceState) : Prop :=
  match calls with
  | [] => s = final
  | (a, b) :: rest => a = s /\ In (a, b) table /\ linked b rest final
  end.

Definition is_scale_tween (e : Event) : bool :=
  match e with gsap_to dice_scale (to_xyz _ _ _) _ _ => true | _ => false end.

Definition is_position_tween (e : Event) : bool :=
  match e with gsap_to dice_position (to_y _) _ _ => true | _ => false end.

Definition is_settle_spin (e : Event) : bool :=
  match e with gsap_to mesh_rotation (by_y _) _ _ => true | _ => false end.

Definition is_kill (e : Event) : bool :=
  match e with gsap_killTweensOf _ => true | _ => false end.

Definition is_DragState (s : DiceState) : bool :=
  match s with DragState => true | _ => false end.

Definition is_HoverState (s : DiceState) : bool :=
  match s with HoverState => true | _ => false end.

Definition count {A : Type} (p : A -> bool) (l : list A) : nat :=
  List.length (filter p l).

Definition is_gsap_call (e : Event) : bool :=
  match e with
  | gsap_to _ _ _ _ | gsap_killTweensOf _ => true
  | call_exit _ | call_enter _ => false
  end.

(** The calls of [setState] so far link up: after the one of the
    constructor they follow the table from [IdleState] to the current
    state. *)
Definition chained (d : DiceCrystal) : Prop :=
  exists ex en,
    exits (trace d) = IdleState :: ex /\
    enters (trace d) = IdleState :: en /\
    List.length ex = List.length en /\
    linked IdleState (combine ex en) (state d).

(** The calls into gsap so far, counted against the calls of [enter] and
    [exit] that make them. *)
Definition accounted (d : DiceCrystal) : Prop :=
  count is_scale_tween (trace d) = List.length (enters (trace d)) /\
  count is_position_tween (trace d) = count is_HoverState (exits (trace d)) /\
  count is_settle_spin (trace d) = count is_DragState (exits (trace d)) /\
  count is_kill (trace d)
    = (2 * (count is_DragState (enters (trace d))
            + count is_DragState (exits (trace d))))%nat /\
  count is_gsap_call (trace d)
    = (count is_scale_tween (trace d) + count is_position_tween (trace d)
       + count is_settle_spin (trace d) + count is_kill (trace d))%nat.

(** ** The angle after an update *)

(** What [update] does to [mesh.rotation.y] in each state. *)
Definition rotation_step (s : DiceState) (y : number) : number :=
  match s with
  | IdleState => ((y + IDLE_ROTATE_SPEED) mod FULL_TURN)%num
  | HoverState => y
  | DragState => ((y + DRAG_ROTATE_SPEED) mod FULL_TURN)%num
  end.

Definition within_a_turn (y : number) : bool :=
  Number.leb (Fin 0) y && Number.ltb y FULL_TURN.

(** Inputs other than a tween writing [mesh.rotation.y]. *)
Definition rotation_untouched (i : Input) : bool :=
  match i with animate_rotation_y _ => false | _ => true end.

(** Inputs other than a tween writing [dice.position]. *)
Definition position_untouched (i : Input) : bool :=
  match i with animate_position_y _ => false | _ => true end.

(** ** The depth of a selected die *)

(** The z that the orthographic [tick] gives the base position. *)
Definition selected_z (d : DiceCrystal) : number :=
  if isHovered d || isDragged d then Fin 400 else Fin 0.

(** ** The grid

    [DiceGrid] owns the dice, the camera and the renderer.  The page is what
    it reads when it runs: the size of the grid element and the rectangles
    of the canvas and of the elements the dice are bound to.  The camera
    constructors of THREE are parameters ([OrthographicCamera l r t b] is the
    camera at z = 500 once its bounds are [l], [r], [t], [b] and its
    projection matrix is up to date).  Lights and the orbit controls of the
    perspective variant are left out. *)

Definition Element : Type := nat.

Record Page : Type := mkPage {
  clientWidth : number;
  clientHeight : number;
  canvas_bounds : DOMRect;
  bounds : Element -> DOMRect
}.

Record Three : Type := mkThree {
  OrthographicCamera : number -> number -> number -> number -> Camera;
  PerspectiveCamera : number -> number -> number -> number -> Camera
}.

(** [dices] pairs every die with its [diceDiv].  [requested_frames] counts
    the callbacks handed to [requestAnimationFrame] that have not run yet;
    [rendered] holds, oldest first, the meshes of the scene as each call of
    [renderer.render] drew them. *)
Record DiceGrid : Type := mkGrid {
  dices : list (Element * DiceCrystal);
  grid_camera : Camera;
  renderer_size : option (number * number);
  requested_frames : nat;
  rendered : list (list Mesh.t)
}.

Definition with_dices (l : list (Element * DiceCrystal)) (g : DiceGrid)
  : DiceGrid :=
  mkGrid l (grid_camera g) (renderer_size g) (requested_frames g) (rendered g).

Definition host_of (page : Page) (cam : Camera) (e : Element) : Host :=
  mkHost (bounds page e) (canvas_bounds page) cam.

(** The meshes in the scene: one for each die, added by its constructor. *)
Definition scene_meshes (g : DiceGrid) : list Mesh.t :=
  map (fun ed => mesh (snd ed)) (dices g).

Definition requestAnimationFrame (g : DiceGrid) : DiceGrid :=
  mkGrid (dices g) (grid_camera g) (renderer_size g)
         (S (requested_frames g)) (rendered g).

Definition render (g : DiceGrid) : DiceGrid :=
  mkGrid (dices g) (grid_camera g) (renderer_size g) (requested_frames g)
         (rendered g ++ [scene_meshes g]).

Definition renderLoop (v : Projection) (once : bool) (g : DiceGrid)
  : DiceGrid :=
  let g := if negb once then requestAnimationFrame g else g in
  let g := render g in
  with_dices (map (fun ed => (fst ed, tick v (snd ed))) (dices g)) g.

(** The camera after the resize handler has set it for a grid [width] by
    [height]. *)
Definition resized_camera (v : Projection) (three : Three)
           (width height : number) : Camera :=
  match v with
  | orthographic =>
      OrthographicCamera three (- width / Fin 2)%num (width / Fin 2)%num
                         (height / Fin 2)%num (- height / Fin 2)%num
  | perspective =>
      PerspectiveCamera three (Fin 45) (width / height)%num (Fin (Qred 0.1))
                        (Fin 2000)
  end.

(** The callback of the [ResizeObserver]. *)
Definition resize (v : Projection) (three : Three) (page : Page)
           (g : DiceGrid) : DiceGrid :=
  let width := clientWidth page in
  let height := clientHeight page in
  let g :=
    mkGrid (dices g) (resized_camera v three width height)
           (Some (width, height)) (requested_frames g) (rendered g) in
  let g :=
    with_dices
      (map (fun ed =>
              (fst ed,
               updateTransform v (host_of page (grid_camera g) (fst ed))
                               (snd ed)))
           (dices g)) g in
  renderLoop v true g.

(** [new DiceGrid(canvas, diceGrid)]. *)
Definition DiceGrid_new (v : Projection) (three : Three) : DiceGrid :=
  let cam :=
    match v with
    | orthographic => OrthographicCamera three (Fin 0) (Fin 0) (Fin 0) (Fin 0)
    | perspective =>
        PerspectiveCamera three (Fin 45) (Fin 1) (Fin (Qred 0.1)) (Fin 2000)
    end in
  renderLoop v false (mkGrid [] cam None 0 []).

Definition addDice (v : Projection) (page : Page) (parent : Element)
           (g : DiceGrid) : DiceCrystal * DiceGrid :=
  let newDice := new v (host_of page (grid_camera g) parent) in
  (newDice, with_dices (dices g ++ [(parent, newDice)]) g).

(** [f] applied to the [i]-th element of a list, if there is one. *)
Fixpoint at_index {A : Type} (i : nat) (f : A -> A) (l : list A) : list A :=
  match l, i with
  | [], _ => []
  | x :: l', O => f x :: l'
  | x :: l', S i' => x :: at_index i' f l'
  end.

(** What the page does to one die: its pointer handlers set the flags and
    the tweens write the animated properties. *)
Inductive Touch : Type :=
| touch_hover (b : bool)
| touch_drag (b : bool)
| touch_scale (s : Vector3.t)
| touch_position_y (y : number)
| touch_rotation_y (y : number).

Definition input_of (t : Touch) : Input :=
  match t with
  | touch_hover b => set_isHovered b
  | touch_drag b => set_isDragged b
  | touch_scale s => animate_scale s
  | touch_position_y y => animate_position_y y
  | touch_rotation_y y => animate_rotation_y y
  end.

(** Everything that happens to a grid once it is constructed: the browser
    runs a requested animation frame, the grid element is resized, a die is
    registered, the element of the [i]-th die changes (its
    [MutationObserver] fires), the page touches the [i]-th die. *)
Inductive GridEvent : Type :=
| animation_frame
| grid_resized (page : Page)
| dice_added (page : Page) (parent : Element)
| element_mutated (page : Page) (i : nat)
| die_touched (i : nat) (t : Touch).

Definition grid_step (v : Projection) (three : Three) (g : DiceGrid)
           (ev : GridEvent) : DiceGrid :=
  match ev with
  | animation_frame =>
      match requested_frames g with
      | O => g
      | S n =>
          renderLoop v false
            (mkGrid (dices g) (grid_camera g) (renderer_size g) n (rendered g))
      end
  | grid_resized page => resize v three page g
  | dice_added page parent => snd (addDice v page parent g)
  | element_mutated page i =>
      with_dices
        (at_index i
           (fun ed =>
              (fst ed,
               updateTransform v (host_of page (grid_camera g) (fst ed))
                               (snd ed)))
           (dices g)) g
  | die_touched i t =>
      with_dices
        (at_index i (fun ed => (fst ed, step v (snd ed) (input_of t)))
                  (dices g)) g
  end.

Definition grid_run (v : Projection) (three : Three)
           (events : list GridEvent) (g : DiceGrid) : DiceGrid :=
  fold_left (grid_step v three) events g.

Definition grid_lifetime (v : Projection) (three : Three)
           (events : list GridEvent) : DiceGrid :=
  grid_run v three events (DiceGrid_new v three).

Definition is_frame (ev : GridEvent) : bool :=
  match ev with animation_frame => true | _ => false end.

Definition is_resize (ev : GridEvent) : bool :=
  match ev with grid_resized _ => true | _ => false end.

(** The elements registered by a sequence of events, in order. *)
Fixpoint registered (events : list GridEvent) : list Element :=
  match events with
  | [] => []
  | dice_added _ parent :: rest => parent :: registered rest
  | _ :: rest => registered rest
  end.

(** A sample of THREE to run the model on: the orthographic camera spans
    its bounds, and the perspective camera is a stand-in of the same kind. *)
Definition flatThree : Three :=
  mkThree (fun l r t b => flatCamera (r - l)%num (t - b)%num)
          (fun fov aspect near far => flatCamera aspect (Fin 1)).

(** A page with an 800 by 600 grid whose elements are 100 by 100 and lie on
    a diagonal. *)
Definition samplePage : Page :=
  mkPage (Fin 800) (Fin 600)
         (mkRect (Fin 0) (Fin 0) (Fin 800) (Fin 600))
         (fun e => mkRect (Fin (inject_Z (100 * Z.of_nat e)))
                          (Fin (inject_Z (100 * Z.of_nat e)))
                          (Fin 100) (Fin 100)).

(** What a grid event delivers to the [i]-th die, bound to [e], when the
    camera of the grid is [cam]: a tick for an animation frame, a
    re-synchronization against the resized camera and a tick for a resize,
    a re-synchronization for a mutation of its own element, a touch
    addressed to it, and nothing otherwise. *)
Definition inputs_of_event (v : Projection) (three : Three) (cam : Camera)
           (e : Element) (i : nat) (ev : GridEvent) : list Input :=
  match ev with
  | animation_frame => [frame]
  | grid_resized page =>
      [layout_changed
         (host_of page
                  (resized_camera v three (clientWidth page)
                                  (clientHeight page)) e);
       frame]
  | dice_added _ _ => []
  | element_mutated page j =>
      if Nat.eqb j i then [layout_changed (host_of page cam e)] else []
  | die_touched j t => if Nat.eqb j i then [input_of t] else []
  end.

(** The camera of the grid after an event: only a resize changes it. *)
Definition camera_after (v : Projection) (three : Three) (cam : Camera)
           (ev : GridEvent) : Camera :=
  match ev with
  | grid_resized page =>
      resized_camera v three (clientWidth page) (clientHeight page)
  | _ => cam
  end.

Fixpoint inputs_for (v : Projection) (three : Three) (cam : Camera)
         (e : Element) (i : nat) (events : list GridEvent) : list Input :=
  match events with
  | [] => []
  | ev :: rest =>
      inputs_of_event v three cam e i ev
      ++ inputs_for v three (camera_after v three cam ev) e i rest
  end.

(** The touches a sequence of events addresses to the [i]-th die. *)
Fixpoint touches_of (i : nat) (events : list GridEvent) : list Touch :=
  match events with
  | [] => []
  | die_touched j t :: rest =>
      if Nat.eqb j i then t :: touches_of i rest else touches_of i rest
  | _ :: rest => touches_of i rest
  end.

(** ** The shared environment map

    [assets/CubeMap.ts] keeps one cube texture in a variable of the module.
    [resolve] stands for [spec => new URL(spec, import.meta.url).href].  A
    texture made by the loader is told from every other one by [texture_id],
    the number of loads made before it. *)

Inductive Mapping : Type := CubeReflectionMapping | CubeRefractionMapping.

Record CubeTexture : Type := mkCubeTexture {
  texture_id : nat;
  images : list string;
  mapping : Mapping
}.

(** The variable [cubeTexture] of the module and the calls of
    [loader.load] made so far, each with its list of addresses. *)
Record CubeMapModule : Type := mkCubeMapModule {
  cubeTexture : option CubeTexture;
  loads : list (list string)
}.

(** The module before the first call: [let cubeTexture = null]. *)
Definition CubeMap_init : CubeMapModule := mkCubeMapModule None [].

Definition LoadCubemap (resolve : string -> string) (m : CubeMapModule)
  : CubeTexture * CubeMapModule :=
  match cubeTexture m with
  | Some t => (t, m)
  | None =>
      let negx := resolve "./negx.jpg" in
      let negy := resolve "./negy.jpg" in
      let negz := resolve "./negz.jpg" in
      let posx := resolve "./posx.jpg" in
      let posy := resolve "./posy.jpg" in
      let posz := resolve "./posz.jpg" in
      let urls := [posx; negx; posy; negy; posz; negz] in
      let texture :=
        mkCubeTexture (List.length (loads m)) urls CubeReflectionMapping in
      let texture :=
        mkCubeTexture (texture_id texture) (images texture)
                      CubeRefractionMapping in
      (texture, mkCubeMapModule (Some texture) (loads m ++ [urls]))
  end.

(** [n] calls in a row: the textures returned, first call first, and the
    module after the last call. *)
Fixpoint LoadCubemap_times (resolve : string -> string) (n : nat)
         (m : CubeMapModule) : list CubeTexture * CubeMapModule :=
  match n with
  | O => ([], m)
  | S n' =>
      let (t, m') := LoadCubemap resolve m in
      let (ts, m'') := LoadCubemap_times resolve n' m' in
      (t :: ts, m'')
  end.

(** ** The calls the states make *)

(** The calls into gsap that the [enter] and [exit] methods make, with their
    targets, end values, durations and easing; a call of [enter] or [exit]
    itself also counts. *)
Definition made_by_a_state (e : Event) : Prop :=
  match e with
  | call_exit _ | call_enter _ => True
  | gsap_to dice_scale (to_xyz x y z) duration ease =>
      x = y /\ y = z /\ ease = "power2.out" /\
      ((x = Fin 1 /\ duration = Fin (Qred 0.4)) \/
       (x = Fin (Qred 1.1) /\ duration = Fin (Qred 0.4)) \/
       (x = Fin (Qred 0.9) /\ duration = Fin (Qred 0.2)))
  | gsap_to dice_position (to_y y) duration ease =>
      y = Fin 0 /\ duration = Fin (Qred 0.2) /\ ease = "power2.out"
  | gsap_to mesh_rotation (by_y delta) duration ease =>
      delta = FULL_TURN /\ duration = Fin (Qred 0.8) /\ ease = "power2.out"
  | gsap_to _ _ _ _ => False
  | gsap_killTweensOf dice_position => False
  | gsap_killTweensOf _ => True
  end.

(** * Properties *)

(** ** Fields that the state machine leaves alone *)

Lemma update_fields d :
  isHovered (update d) = isHovered d /\ isDragged (update d) = isDragged d /\
  position (update d) = position d /\ _position (update d) = _position d /\
  scale (update d) = scale d /\ _scale (update d) = _scale d.
Proof. destruct d as [[] [] [] m p bp sc bs tr]; repeat split. Qed.

(** ** The transition table *)

(** C3.  Whatever the state and whatever [isHovered], a die whose
    [isDragged] flag is set is in [DragState] after one [update], and so
    after one [tick] of either variant. *)
Theorem dragged_flag_gives_DragState (d : DiceCrystal) :
  isDragged d = true ->
  state (update d) = DragState /\
  state (Orthographic.tick d) = DragState /\
  state (Perspective.tick d) = DragState.
Proof.
  intros Hg.
  assert (Hu : state (update d) = DragState).
  { destruct d as [st h g m p bp sc bs tr]; simpl in Hg; subst g.
    destruct st; reflexivity. }
  repeat split; [exact Hu | exact Hu | exact Hu].
Qed.

Lemma dragged_flag_gives_DragState_witness :
  isDragged (with_isDragged true (with_isHovered true
               (Orthographic.new sampleHost))) = true /\
  state (update (with_isDragged true (with_isHovered true
                   (Orthographic.new sampleHost)))) = DragState.
Proof.
  split; [reflexivity |].
  apply (dragged_flag_gives_DragState
           (with_isDragged true (with_isHovered true
              (Orthographic.new sampleHost)))).
  reflexivity.
Defined.

(** C4.  A die in [DragState] whose [isDragged] flag is clear goes to
    [IdleState] on the next [update], also when [isHovered] is set; it does
    not go to [HoverState]. *)
Theorem leaving_DragState_gives_IdleState (d : DiceCrystal) :
  state d = DragState ->
  isDragged d = false ->
  state (update d) = IdleState /\ state (update d) <> HoverState.
Proof.
  intros Hs Hg.
  assert (Hu : state (update d) = IdleState).
  { destruct d as [st h g m p bp sc bs tr]; simpl in Hs, Hg; subst st g.
    reflexivity. }
  split; [exact Hu | rewrite Hu; discriminate].
Qed.

Lemma leaving_DragState_gives_IdleState_witness :
  state releasedDie = DragState /\
  isDragged releasedDie = false /\
  isHovered releasedDie = true /\
  state (update releasedDie) = IdleState.
Proof.
  split; [reflexivity |]. split; [reflexivity |]. split; [reflexivity |].
  apply (leaving_DragState_gives_IdleState releasedDie); reflexivity.
Defined.

(** The first scenario of the specification: an idle die is hovered, then
    dragged.  The first update enters [HoverState] and asks for the scale
    1.1; the second goes from [HoverState] to [DragState] without passing
    through [IdleState], cancels the rotation and scale tweens and asks for
    the scale 0.9. *)
Example hover_then_drag :
  let d0 := Orthographic.new sampleHost in
  let d1 := update (with_isHovered true d0) in
  let d2 := update (with_isDragged true d1) in
  state d1 = HoverState /\ state d2 = DragState /\
  trace d1 = trace d0 ++
    [call_exit IdleState; call_enter HoverState;
     gsap_to dice_scale
             (to_xyz (Fin (Qred 1.1)) (Fin (Qred 1.1)) (Fin (Qred 1.1)))
             (Fin (Qred 0.4)) "power2.out"] /\
  trace d2 = trace d1 ++
    [call_exit HoverState;
     gsap_to dice_position (to_y (Fin 0)) (Fin (Qred 0.2)) "power2.out";
     call_enter DragState;
     gsap_killTweensOf mesh_rotation; gsap_killTweensOf dice_scale;
     gsap_to dice_scale
             (to_xyz (Fin (Qred 0.9)) (Fin (Qred 0.9)) (Fin (Qred 0.9)))
             (Fin (Qred 0.2)) "power2.out"].
Proof. repeat split. Qed.

(** ** The synchronizer *)

(** What each variant hands to the camera: the orthographic
    [updateTransform] un-projects the device point given by the formula of
    the specification, with z = 0; the perspective one un-projects the point
    in which the factor 2 of the formula is replaced by [sc] = 200. *)
Lemma updateTransform_unprojects (host : Host) (d : DiceCrystal) :
  let rect := diceDiv_rect host in
  let gridRect := canvas_rect host in
  let ndcX := spec_ndcX (centerX rect) (left gridRect) (width gridRect) in
  let ndcY := spec_ndcY (centerY rect) (top gridRect) (height gridRect) in
  let ndcX' :=
    scaled_ndcX (Fin 200) (centerX rect) (left gridRect) (width gridRect) in
  let ndcY' :=
    scaled_ndcY (Fin 200) (centerY rect) (top gridRect) (height gridRect) in
  let world := unproject (camera host) (Vector3.make ndcX ndcY (Fin 0)) in
  let world' := unproject (camera host) (Vector3.make ndcX' ndcY' (Fin 0)) in
  (Vector3.x (_position (Orthographic.updateTransform host d))
     = Vector3.x world /\
   Vector3.y (_position (Orthographic.updateTransform host d))
     = Vector3.y world) /\
  (Vector3.x (_position (Perspective.updateTransform host d))
     = Vector3.x world' /\
   Vector3.y (_position (Perspective.updateTransform host d))
     = Vector3.y world').
Proof.
  repeat split.
Qed.

(** C1.  In the orthographic variant [updateTransform] computes the device
    coordinates of the centre of the rectangle by the formula, for every
    pair of rectangles.  The perspective variant does not: it multiplies by
    [sc] = 200 where the formula, the comment above the computation ("NDC,
    -1 to 1 range") and the orthographic variant have 2.  For an element in
    the middle of the canvas the formula gives the device point (0, 0) and
    the perspective [updateTransform] computes (99, -99), which its camera
    then un-projects. *)
Theorem ndc_formula_holds_in_orthographic_only :
  (forall host : Host,
     let rect := diceDiv_rect host in
     let gridRect := canvas_rect host in
     Orthographic.xNDC host
       = spec_ndcX (centerX rect) (left gridRect) (width gridRect) /\
     Orthographic.yNDC host
       = spec_ndcY (centerY rect) (top gridRect) (height gridRect)) /\
  (forall host : Host,
     let rect := diceDiv_rect host in
     let gridRect := canvas_rect host in
     Perspective.xNDC host
       = scaled_ndcX (Fin 200) (centerX rect) (left gridRect) (width gridRect) /\
     Perspective.yNDC host
       = scaled_ndcY (Fin 200) (centerY rect) (top gridRect)
                     (height gridRect)) /\
  (let rect := diceDiv_rect centredHost in
   let gridRect := canvas_rect centredHost in
   is_zero (width gridRect) = false /\ is_zero (height gridRect) = false /\
   spec_ndcX (centerX rect) (left gridRect) (width gridRect) = Fin 0 /\
   spec_ndcY (centerY rect) (top gridRect) (height gridRect) = Fin 0 /\
   Perspective.xNDC centredHost = Fin 99 /\
   Perspective.yNDC centredHost = Fin (-99) /\
   Perspective.xNDC centredHost
     <> spec_ndcX (centerX rect) (left gridRect) (width gridRect) /\
   Perspective.yNDC centredHost
     <> spec_ndcY (centerY rect) (top gridRect) (height gridRect)).
Proof.
  split; [intros host; split; reflexivity |].
  split; [intros host; split; reflexivity |].
  repeat split; try reflexivity; vm_compute; discriminate.
Qed.

(** C6.  [updateTransform] is idempotent in both variants: a second call
    with the same rectangles and camera leaves the die, and so its base
    position and base scale, as the first call left it.  This holds for every
    viewport; for one of nonzero size the values are finite numbers, for one
    of zero size the second call stores the same infinities or NaN as the
    first. *)
Theorem updateTransform_idempotent (host : Host) (d : DiceCrystal) :
  (Orthographic.updateTransform host (Orthographic.updateTransform host d)
     = Orthographic.updateTransform host d /\
   Perspective.updateTransform host (Perspective.updateTransform host d)
     = Perspective.updateTransform host d) /\
  (_position (Orthographic.updateTransform host
                (Orthographic.updateTransform host d))
     = _position (Orthographic.updateTransform host d) /\
   _scale (Orthographic.updateTransform host
             (Orthographic.updateTransform host d))
     = _scale (Orthographic.updateTransform host d)) /\
  (_position (Perspective.updateTransform host
                (Perspective.updateTransform host d))
     = _position (Perspective.updateTransform host d) /\
   _scale (Perspective.updateTransform host
             (Perspective.updateTransform host d))
     = _scale (Perspective.updateTransform host d)).
Proof.
  repeat split.
Qed.

Lemma resyncs_keep_z v hosts d :
  Vector3.z (_position (run v (map layout_changed hosts) d))
    = Vector3.z (_position d).
Proof.
  unfold run. revert d.
  induction hosts as [| host hosts IH]; intros d; simpl.
  - reflexivity.
  - rewrite IH. destruct v; reflexivity.
Qed.

(** C7.  [updateTransform] takes the x and y of the base position from the
    un-projected point and keeps the z the base position had before the
    call, in both variants; so the z is the same after any number of
    re-synchronizations, whatever the rectangles and cameras. *)
Theorem updateTransform_keeps_z
        (host : Host) (d : DiceCrystal) (v : Projection) (hosts : list Host) :
  let world :=
    unproject (camera host)
      (Vector3.make (Orthographic.xNDC host) (Orthographic.yNDC host) (Fin 0)) in
  let world' :=
    unproject (camera host)
      (Vector3.make (Perspective.xNDC host) (Perspective.yNDC host) (Fin 0)) in
  _position (Orthographic.updateTransform host d)
    = Vector3.make (Vector3.x world) (Vector3.y world)
                   (Vector3.z (_position d)) /\
  _position (Perspective.updateTransform host d)
    = Vector3.make (Vector3.x world') (Vector3.y world')
                   (Vector3.z (_position d)) /\
  Vector3.z (_position (updateTransform v host d)) = Vector3.z (_position d) /\
  Vector3.z (_position (run v (map layout_changed hosts) d))
    = Vector3.z (_position d).
Proof.
  split; [reflexivity |]. split; [reflexivity |].
  split; [destruct v; reflexivity | apply resyncs_keep_z].
Qed.

(** ** Division by the viewport size *)






Lemma finite_div_nonzero a b :
  Number.finite a = true -> Number.finite b = true -> is_zero b = false ->
  Number.finite (a / b)%num = true.
Proof.
  destruct a, b; simpl; intros Ha Hb Hz; try discriminate.
  rewrite Hz. reflexivity.
Qed.

Lemma finite_add a b :
  Number.finite a = true -> Number.finite b = true ->
  Number.finite (a + b)%num = true.
Proof. destruct a, b; simpl; intros; try discriminate; reflexivity. Qed.


Lemma finite_mul a b :
  Number.finite a = true -> Number.finite b = true ->
  Number.finite (a * b)%num = true.
Proof. destruct a, b; simpl; intros; try discriminate; reflexivity. Qed.

Lemma finite_centre a b :
  Number.finite a = true -> Number.finite b = true ->
  Number.finite (a + b / Fin 2)%num = true.
Proof.
  intros Ha Hb. apply finite_add; [exact Ha |].
  apply finite_div_nonzero; [exact Hb | reflexivity | reflexivity].
Qed.




(** ** Composition of the mesh transform *)

(** C8, as stated, fails in the orthographic variant: [tick] sets the z of
    the base position after it has composed the mesh position.  On the first
    frame of a hover the mesh is left at z = 0 while the base position plus
    the offset has z = 400. *)
Lemma tick_composition_lags_in_z :
  let d := Orthographic.tick (with_isHovered true
                                (Orthographic.new sampleHost)) in
  Vector3.z (Mesh.position (mesh d)) = Fin 0 /\
  Vector3.z (Vector3.addVectors (_position d) (position d)) = Fin 400 /\
  Mesh.position (mesh d) <> Vector3.addVectors (_position d) (position d).
Proof.
  repeat split. vm_compute. discriminate.
Qed.

(** C8, amended.  After a [tick] the mesh scale is the componentwise product
    of the base scale and the animated scale factor, and the mesh position is
    the sum of the base position and the animated offset, all read at the
    time of composition.  In the perspective variant, and for x and y in the
    orthographic variant, these are the fields as the tick leaves them; in
    the orthographic variant the z of the sum is the z the base position had
    when the tick began. *)
Theorem tick_composes_base_and_animated (d : DiceCrystal) :
  let o := Orthographic.tick d in
  let p := Perspective.tick d in
  (Mesh.scale (mesh o) = Vector3.multiplyVectors (_scale o) (scale o) /\
   Mesh.position (mesh o) = Vector3.addVectors (_position d) (position o) /\
   Vector3.x (Mesh.position (mesh o))
     = Vector3.x (Vector3.addVectors (_position o) (position o)) /\
   Vector3.y (Mesh.position (mesh o))
     = Vector3.y (Vector3.addVectors (_position o) (position o))) /\
  (Mesh.scale (mesh p) = Vector3.multiplyVectors (_scale p) (scale p) /\
   Mesh.position (mesh p) = Vector3.addVectors (_position p) (position p)).
Proof.
  destruct (update_fields d) as (Hh & Hg & Hp & Hbp & Hs & Hbs).
  unfold Orthographic.tick, Perspective.tick; simpl.
  rewrite Hp, Hbp, Hs, Hbs. repeat split.
Qed.

(** ** The calls of [setState] in a trace *)

Lemma exits_app a b : exits (a ++ b) = exits a ++ exits b.
Proof.
  induction a as [| e a IH]; simpl; [reflexivity |].
  destruct e; simpl; rewrite IH; reflexivity.
Qed.

Lemma enters_app a b : enters (a ++ b) = enters a ++ enters b.
Proof.
  induction a as [| e a IH]; simpl; [reflexivity |].
  destruct e; simpl; rewrite IH; reflexivity.
Qed.

Lemma setState_exits s d :
  exits (trace (setState s d)) = exits (trace d) ++ [state d].
Proof.
  destruct d as [st h g m p bp sc bs tr], st, s; simpl;
    rewrite ?exits_app; simpl; rewrite ?app_nil_r; reflexivity.
Qed.

Lemma setState_enters s d :
  enters (trace (setState s d)) = enters (trace d) ++ [s].
Proof.
  destruct d as [st h g m p bp sc bs tr], st, s; simpl;
    rewrite ?enters_app; simpl; rewrite ?app_nil_r; reflexivity.
Qed.

(** One [update] calls [setState] at most once, and then with a state other
    than the current one. *)
Lemma update_calls d :
  (exits (trace (update d)) = exits (trace d) /\
   enters (trace (update d)) = enters (trace d)) \/
  (exists s, s <> state d /\
     exits (trace (update d)) = exits (trace d) ++ [state d] /\
     enters (trace (update d)) = enters (trace d) ++ [s]).
Proof.
  destruct d as [st h g m p bp sc bs tr].
  destruct st, h, g; unfold update; simpl state; cbv iota;
    unfold IdleState_update, HoverState_update, DragState_update;
    simpl isDragged; simpl isHovered; cbv iota; simpl negb; cbv iota;
    first [ left; split; reflexivity
          | right; eexists; rewrite setState_exits, setState_enters;
            split; [| split; reflexivity]; discriminate ].
Qed.

Lemma tick_trace v d : trace (tick v d) = trace (update d).
Proof. destruct v; reflexivity. Qed.

Lemma new_well_traced v host : well_traced (new v host).
Proof. exists [], []. destruct v; repeat split; constructor. Qed.

Lemma step_well_traced v d i : well_traced d -> well_traced (step v d i).
Proof.
  intros (ex & en & Hex & Hen & Hne).
  destruct i; simpl; try (destruct v; exists ex, en; repeat split; assumption).
  unfold well_traced. rewrite tick_trace.
  destruct (update_calls d) as [[E1 E2] | (s & Hs & E1 & E2)];
    rewrite E1, E2, Hex, Hen.
  - exists ex, en. repeat split; assumption.
  - exists (ex ++ [state d]), (en ++ [s]). repeat split.
    apply Forall2_app; [assumption |].
    constructor; [congruence | constructor].
Qed.

Lemma run_well_traced v inputs d : well_traced d -> well_traced (run v inputs d).
Proof.
  revert d. induction inputs as [| i inputs IH]; intros d H; simpl.
  - exact H.
  - apply IH, step_well_traced, H.
Qed.

Lemma Forall2_combine (A B : Type) (R : A -> B -> Prop) (l : list A) (l' : list B) :
  Forall2 R l l' -> Forall (fun c => R (fst c) (snd c)) (combine l l').
Proof.
  induction 1; simpl; constructor; assumption.
Qed.

(** ** The transition protocol *)

(** C5, as stated, fails at construction: the field initialiser puts the die
    in [IdleState] and the constructor then calls [setState] with
    [IdleState], in both variants. *)
Lemma constructor_reenters_IdleState :
  state Orthographic.fields = IdleState /\
  state Perspective.fields = IdleState /\
  setState_calls (trace (Orthographic.new sampleHost))
    = [(IdleState, IdleState)] /\
  setState_calls (trace (Perspective.new sampleHost))
    = [(IdleState, IdleState)] /\
  ~ Forall changes_state (setState_calls (trace (Orthographic.new sampleHost))).
Proof.
  repeat split. intros H. inversion H as [| c l Hc Hl]; subst.
  apply Hc. reflexivity.
Qed.

(** C5, amended.  Every call of [setState] calls [exit] on the state the die
    is in, makes the new state current, and calls [enter] on the new state,
    in this order and each once.  The constructor calls it with the state
    the die is already in, [IdleState]; every later call in the life of the
    die, all of them made by [update], asks for a state other than the
    current one. *)
Theorem setState_protocol (s : DiceState) (d : DiceCrystal)
        (v : Projection) (host : Host) (inputs : list Input) :
  (exists on_exit on_enter,
     trace (setState s d)
       = trace d ++ call_exit (state d) :: on_exit ++ call_enter s :: on_enter /\
     Forall is_gsap on_exit /\ Forall is_gsap on_enter /\
     state (setState s d) = s) /\
  (exists later,
     setState_calls (trace (lifetime v host inputs))
       = (IdleState, IdleState) :: later /\
     Forall changes_state later).
Proof.
  split.
  - destruct d as [st h g m p bp sc bs tr].
    destruct st;
      [ exists []
      | exists [gsap_to dice_position (to_y (Fin 0)) (Fin (Qred 0.2))
                        "power2.out"]
      | exists [gsap_killTweensOf mesh_rotation; gsap_killTweensOf dice_scale;
                gsap_to mesh_rotation (by_y FULL_TURN) (Fin (Qred 0.8))
                        "power2.out"] ];
      (destruct s;
       [ exists [gsap_to dice_scale (to_xyz (Fin 1) (Fin 1) (Fin 1))
                         (Fin (Qred 0.4)) "power2.out"]
       | exists [gsap_to dice_scale
                         (to_xyz (Fin (Qred 1.1)) (Fin (Qred 1.1))
                                 (Fin (Qred 1.1)))
                         (Fin (Qred 0.4)) "power2.out"]
       | exists [gsap_killTweensOf mesh_rotation; gsap_killTweensOf dice_scale;
                 gsap_to dice_scale
                         (to_xyz (Fin (Qred 0.9)) (Fin (Qred 0.9))
                                 (Fin (Qred 0.9)))
                         (Fin (Qred 0.2)) "power2.out"] ]);
      (split;
       [ cbn -[Qred FULL_TURN]; rewrite <- ?app_assoc; reflexivity
       | split; [| split];
         [ repeat (constructor; try exact I) ..
         | reflexivity ] ]).
  - destruct (run_well_traced v inputs _ (new_well_traced v host))
      as (ex & en & Hex & Hen & Hne).
    exists (combine ex en). unfold setState_calls, lifetime.
    rewrite Hex, Hen. split; [reflexivity |].
    apply (Forall2_combine _ _ (fun a b => a <> b)), Hne.
Qed.

(** ** The rotation of an idle die *)

Lemma FULL_TURN_value : FULL_TURN = Fin full_turn.
Proof. reflexivity. Qed.

Section Remainder.

(** An angle [y] in [0, T) advanced by a step [s] that is positive and
    less than a turn. *)
Variables y s T : Q.
Hypothesis y_nonneg : 0 <= y.
Hypothesis y_below : y < T.
Hypothesis s_pos : 0 < s.
Hypothesis s_below : s < T.

(** The finite values that [y + s] and [(y + s) % T] compute. *)
Local Abbreviation a := (Qred (y + s)).
Local Abbreviation r := (Qred (a - T * inject_Z (Number.trunc (a / T)))).

Lemma advanced_value : a == y + s.
Proof. apply Qred_correct. Qed.

Lemma T_pos : 0 < T.
Proof. apply Qle_lt_trans with y; assumption. Qed.

Lemma quotient_nonneg : 0 <= a / T.
Proof.
  apply Qle_shift_div_l; [exact T_pos |].
  rewrite advanced_value. lra.
Qed.

Lemma trunc_is_floor : Number.trunc (a / T) = Qfloor (a / T).
Proof.
  pose proof quotient_nonneg as H.
  unfold Number.trunc, Qfloor. destruct (a / T) as [n d].
  unfold Qle in H; simpl in H.
  apply Z.quot_div_nonneg; lia.
Qed.

Lemma floor_below : T * inject_Z (Qfloor (a / T)) <= a.
Proof.
  pose proof (Qfloor_le (a / T)) as H.
  pose proof T_pos as HT.
  assert (E : a == T * (a / T)) by (rewrite Qmult_div_r; [reflexivity | lra]).
  rewrite E at 2.
  apply Qmult_le_l; [exact HT | exact H].
Qed.

Lemma floor_above : a < T * inject_Z (Qfloor (a / T) + 1).
Proof.
  pose proof (Qlt_floor (a / T)) as H.
  pose proof T_pos as HT.
  assert (E : a == T * (a / T)) by (rewrite Qmult_div_r; [reflexivity | lra]).
  rewrite E at 1.
  apply Qmult_lt_l; [exact HT | exact H].
Qed.

Lemma floor_is_0_or_1 : Qfloor (a / T) = 0%Z \/ Qfloor (a / T) = 1%Z.
Proof.
  pose proof floor_below as Hb.
  pose proof T_pos as HT. pose proof advanced_value as Ha.
  assert (H0 : (0 <= Qfloor (a / T))%Z).
  { rewrite <- (Qfloor_Z 0). apply Qfloor_resp_le, quotient_nonneg. }
  assert (H2 : (Qfloor (a / T) < 2)%Z).
  { rewrite Zlt_Qlt.
    apply Qmult_lt_l with T; [exact HT |].
    apply Qle_lt_trans with a; [exact Hb |].
    rewrite Ha. change (inject_Z 2) with 2. lra. }
  lia.
Qed.

Lemma remainder_bounds : 0 <= r /\ r < T.
Proof.
  pose proof floor_below as Hb. pose proof floor_above as Ha.
  rewrite trunc_is_floor, Qred_correct.
  rewrite inject_Z_plus in Ha. change (inject_Z 1) with 1 in Ha.
  split; lra.
Qed.

Lemma remainder_without_wrap : a < T -> r = a.
Proof.
  intros Hlt. rewrite trunc_is_floor.
  assert (E : Qfloor (a / T) = 0%Z).
  { destruct floor_is_0_or_1 as [E | E]; [exact E |].
    pose proof floor_below as Hb. rewrite E in Hb.
    change (inject_Z 1) with 1 in Hb. lra. }
  rewrite E. apply Qred_complete.
  change (inject_Z 0) with 0. rewrite advanced_value. lra.
Qed.

Lemma remainder_with_wrap : T <= a -> r = Qred (a + Qred (- T)).
Proof.
  intros Hle. rewrite trunc_is_floor.
  assert (E : Qfloor (a / T) = 1%Z).
  { destruct floor_is_0_or_1 as [E | E]; [| exact E].
    pose proof floor_above as Ha. rewrite E in Ha.
    change (inject_Z (0 + 1)) with 1 in Ha. lra. }
  rewrite E. apply Qred_complete.
  change (inject_Z 1) with 1. rewrite !Qred_correct. lra.
Qed.

Lemma advanced_above : y < a.
Proof. rewrite advanced_value. lra. Qed.

End Remainder.

Lemma ltb_Fin_true p q : Number.ltb (Fin p) (Fin q) = true <-> p < q.
Proof.
  simpl. destruct (Qle_bool q p) eqn:E; simpl.
  - apply Qle_bool_iff in E. split; [discriminate | lra].
  - split; [intros _ | reflexivity].
    apply Qnot_le_lt. intros H. apply Qle_bool_iff in H. congruence.
Qed.

Lemma ltb_Fin_false p q : Number.ltb (Fin p) (Fin q) = false <-> q <= p.
Proof.
  simpl. destruct (Qle_bool q p) eqn:E; simpl.
  - apply Qle_bool_iff in E. split; [intros _; exact E | reflexivity].
  - split; [discriminate |].
    intros H. apply Qle_bool_iff in H. congruence.
Qed.

Lemma leb_Fin_true p q : Number.leb (Fin p) (Fin q) = true <-> p <= q.
Proof. apply Qle_bool_iff. Qed.

(** One rotation step [(y + s) % T] from an angle in [0, T). *)
Lemma rotate_step (y s T : Q) :
  0 <= y -> y < T -> 0 < s -> s < T ->
  let b := ((Fin y + Fin s) mod Fin T)%num in
  Number.leb (Fin 0) b = true /\
  Number.ltb b (Fin T) = true /\
  b = (if Number.ltb (Fin y + Fin s) (Fin T)
       then Fin y + Fin s else Fin y + Fin s - Fin T)%num /\
  Number.ltb (Fin y) (Fin y + Fin s)%num = true.
Proof.
  intros Hy HyT Hs HsT.
  assert (HT : Qeq_bool T 0 = false).
  { destruct (Qeq_bool T 0) eqn:E; [| reflexivity].
    apply Qeq_bool_iff in E. lra. }
  cbv zeta.
  cbn [Number.add Number.rem Number.sub Number.neg]. rewrite HT.
  destruct (remainder_bounds y s T Hy HyT Hs) as [Hr0 HrT].
  split; [apply leb_Fin_true; exact Hr0 |].
  split; [apply ltb_Fin_true; exact HrT |].
  split; [| apply ltb_Fin_true; apply (advanced_above y s); assumption].
  destruct (Number.ltb (Fin (Qred (y + s))) (Fin T)) eqn:E.
  - apply ltb_Fin_true in E. f_equal.
    apply (remainder_without_wrap y s T); assumption.
  - apply ltb_Fin_false in E. f_equal.
    apply (remainder_with_wrap y s T); assumption.
Qed.

Lemma idle_update_rotation d :
  state d = IdleState -> isHovered d = false -> isDragged d = false ->
  update d
    = with_rotation_y ((rotation_y d + IDLE_ROTATE_SPEED) mod FULL_TURN)%num d.
Proof.
  destruct d as [st h g m p bp sc bs tr]; simpl. intros -> -> ->.
  reflexivity.
Qed.

Lemma idle_update_step d :
  idle_within_a_turn d ->
  idle_within_a_turn (update d) /\
  rotation_y (update d) =
    (if Number.ltb (rotation_y d + IDLE_ROTATE_SPEED) FULL_TURN
     then rotation_y d + IDLE_ROTATE_SPEED
     else rotation_y d + IDLE_ROTATE_SPEED - FULL_TURN)%num /\
  Number.ltb (rotation_y d) (rotation_y d + IDLE_ROTATE_SPEED)%num = true.
Proof.
  intros (Hs & Hh & Hg & H0 & HT).
  rewrite (idle_update_rotation d Hs Hh Hg).
  assert (Hy : exists y, rotation_y d = Fin y /\ 0 <= y /\ y < full_turn).
  { destruct (rotation_y d) as [y | | |]; try discriminate.
    exists y. split; [reflexivity |].
    split; [apply leb_Fin_true, H0 | apply ltb_Fin_true, HT]. }
  destruct Hy as (y & Ey & Hy0 & HyT).
  assert (Er : forall v, rotation_y (with_rotation_y v d) = v) by reflexivity.
  rewrite Er, Ey, FULL_TURN_value. unfold IDLE_ROTATE_SPEED.
  destruct (rotate_step y (Qred 0.005) full_turn Hy0 HyT) as (B0 & BT & Bv & Bs);
    [reflexivity | reflexivity |].
  split; [| split; [exact Bv | exact Bs]].
  unfold idle_within_a_turn. rewrite Er, FULL_TURN_value.
  destruct d as [st h g m p bp sc bs tr]; simpl in Hs, Hh, Hg |- *.
  repeat split; assumption.
Qed.

Lemma idle_updates_stay n d :
  idle_within_a_turn d -> idle_within_a_turn (Nat.iter n update d).
Proof.
  intros H. induction n as [| n IH]; simpl; [exact H |].
  apply idle_update_step, IH.
Qed.

(** C9.  Take a die that is idle, with both flags clear and its angle in
    [0, FULL_TURN).  After any number of updates it is still idle and its
    angle is still in [0, FULL_TURN).  Each update adds [IDLE_ROTATE_SPEED],
    which makes the angle strictly larger, and subtracts one full turn when
    the sum has reached [FULL_TURN]: the new angle is the sum when the sum is
    below a full turn and the sum less a full turn otherwise. *)
Theorem idle_rotation_stays_within_a_turn (d : DiceCrystal) (n : nat) :
  state d = IdleState ->
  isHovered d = false ->
  isDragged d = false ->
  Number.leb (Fin 0) (rotation_y d) = true ->
  Number.ltb (rotation_y d) FULL_TURN = true ->
  let before := Nat.iter n update d in
  let after := update before in
  state after = IdleState /\
  Number.leb (Fin 0) (rotation_y after) = true /\
  Number.ltb (rotation_y after) FULL_TURN = true /\
  rotation_y after =
    (if Number.ltb (rotation_y before + IDLE_ROTATE_SPEED) FULL_TURN
     then rotation_y before + IDLE_ROTATE_SPEED
     else rotation_y before + IDLE_ROTATE_SPEED - FULL_TURN)%num /\
  Number.ltb (rotation_y before)
             (rotation_y before + IDLE_ROTATE_SPEED)%num = true.
Proof.
  intros Hs Hh Hg H0 HT before after.
  assert (Hd : idle_within_a_turn d) by (repeat split; assumption).
  destruct (idle_update_step before (idle_updates_stay n d Hd))
    as ((Es & _ & _ & A0 & AT) & Ev & Ei).
  repeat split; assumption.
Qed.

Lemma idle_rotation_stays_within_a_turn_witness :
  state (Orthographic.new sampleHost) = IdleState /\
  isHovered (Orthographic.new sampleHost) = false /\
  isDragged (Orthographic.new sampleHost) = false /\
  Number.leb (Fin 0) (rotation_y (Orthographic.new sampleHost)) = true /\
  Number.ltb (rotation_y (Orthographic.new sampleHost)) FULL_TURN = true /\
  Number.ltb
    (rotation_y (update (Nat.iter 1300 update (Orthographic.new sampleHost))))
    FULL_TURN = true.
Proof.
  split; [reflexivity |]. split; [reflexivity |]. split; [reflexivity |].
  split; [reflexivity |]. split; [reflexivity |].
  apply (idle_rotation_stays_within_a_turn (Orthographic.new sampleHost) 1300);
    reflexivity.
Defined.

(** ** The animated scale factor of a new die *)

Lemma mul_zero a : Number.finite a = true -> (a * Fin 0)%num = Fin 0.
Proof.
  destruct a as [q | | |]; cbn [Number.finite Number.mul]; intros H;
    try discriminate.
  f_equal. transitivity (Qred 0); [| reflexivity].
  apply Qred_complete. ring.
Qed.

Lemma multiplyVectors_zero v :
  Vector3.finite v = true -> Vector3.multiplyVectors v Vector3.zero = Vector3.zero.
Proof.
  destruct v as [a b c]. unfold Vector3.finite, Vector3.multiplyVectors; simpl.
  intros H. apply andb_prop in H as [H Hc]. apply andb_prop in H as [Ha Hb].
  rewrite (mul_zero a Ha), (mul_zero b Hb), (mul_zero c Hc). reflexivity.
Qed.

Lemma finite_scaleFactor w :
  Number.finite w = true ->
  Vector3.finite (Vector3.make (w * SCALE) (w * SCALE) (w * SCALE))%num = true.
Proof.
  intros H. unfold Vector3.finite; simpl.
  rewrite (finite_mul w SCALE H eq_refl). reflexivity.
Qed.

Lemma new_scale_at_zero host :
  Number.finite (width (diceDiv_rect host)) = true ->
  scale_at_zero (Orthographic.new host).
Proof.
  intros H. split; [reflexivity |].
  apply (finite_scaleFactor _ H).
Qed.

Lemma step_scale_at_zero d i :
  scale_untouched i = true -> scale_at_zero d ->
  scale_at_zero (step orthographic d i).
Proof.
  intros Hi [Hs Hb].
  destruct i; simpl in Hi |- *; try discriminate; try (split; assumption).
  - destruct (update_fields d) as (_ & _ & _ & _ & Es & Eb).
    split; simpl; [rewrite Es | rewrite Eb]; assumption.
  - split; [exact Hs | apply (finite_scaleFactor _ Hi)].
Qed.

Lemma run_scale_at_zero inputs d :
  forallb scale_untouched inputs = true -> scale_at_zero d ->
  scale_at_zero (run orthographic inputs d).
Proof.
  revert d. induction inputs as [| i inputs IH]; intros d Hi Hd; simpl.
  - exact Hd.
  - simpl in Hi. apply andb_prop in Hi as [Hi Hrest].
    apply IH; [exact Hrest | apply step_scale_at_zero; assumption].
Qed.

(** C10.  In the orthographic variant a new die has the animated scale factor
    (0, 0, 0), and the constructor has asked gsap to move it to (1, 1, 1).
    As long as no tween has written the factor, it stays (0, 0, 0) and every
    tick composes the mesh scale (0, 0, 0), whatever else happens to the die.
    In the perspective variant a new die has the factor (1, 1, 1), and the
    first tick composes the mesh scale (1, 1, 1). *)
Theorem new_die_scale_factor (host : Host) (inputs : list Input) :
  Number.finite (width (diceDiv_rect host)) = true ->
  forallb scale_untouched inputs = true ->
  (scale (Orthographic.new host) = Vector3.zero /\
   In (gsap_to dice_scale (to_xyz (Fin 1) (Fin 1) (Fin 1)) (Fin (Qred 0.4))
               "power2.out")
      (trace (Orthographic.new host)) /\
   scale (lifetime orthographic host inputs) = Vector3.zero /\
   Mesh.scale (mesh (Orthographic.tick (lifetime orthographic host inputs)))
     = Vector3.zero) /\
  (scale (Perspective.new host) = unit_scale /\
   Mesh.scale (mesh (Perspective.tick (Perspective.new host))) = unit_scale).
Proof.
  intros Hw Hi.
  destruct (run_scale_at_zero inputs _ Hi (new_scale_at_zero host Hw))
    as [Hs Hb].
  change (scale (lifetime orthographic host inputs) = Vector3.zero) in Hs.
  change (Vector3.finite (_scale (lifetime orthographic host inputs)) = true)
    in Hb.
  split; [| split; reflexivity].
  split; [reflexivity |].
  split; [simpl; auto |].
  split; [exact Hs |].
  destruct (update_fields (lifetime orthographic host inputs))
    as (_ & _ & _ & _ & Es & Eb).
  unfold Orthographic.tick; simpl.
  rewrite Es, Eb, Hs.
  apply multiplyVectors_zero, Hb.
Qed.

Lemma new_die_scale_factor_witness :
  Number.finite (width (diceDiv_rect sampleHost)) = true /\
  forallb scale_untouched
          [frame; set_isHovered true; frame; layout_changed centredHost;
           set_isDragged true; frame] = true /\
  Mesh.scale
    (mesh (Orthographic.tick
             (lifetime orthographic sampleHost
                [frame; set_isHovered true; frame; layout_changed centredHost;
                 set_isDragged true; frame]))) = Vector3.zero.
Proof.
  split; [reflexivity |]. split; [reflexivity |].
  apply (new_die_scale_factor sampleHost
           [frame; set_isHovered true; frame; layout_changed centredHost;
            set_isDragged true; frame]); reflexivity.
Defined.

(** * Further properties of the state machine *)

(** ** Following the flags *)

Lemma update_reaches_settled_or_idle d :
  state (update d) = settled (isHovered d) (isDragged d) \/
  (state d = DragState /\ isDragged d = false /\ isHovered d = true /\
   state (update d) = IdleState).
Proof.
  destruct d as [st h g m p bp sc bs tr].
  destruct st, h, g; simpl; auto.
Qed.

Lemma update_keeps_settled d :
  state d = settled (isHovered d) (isDragged d) ->
  state (update d) = settled (isHovered d) (isDragged d).
Proof.
  destruct d as [st h g m p bp sc bs tr].
  destruct st, h, g; simpl; intros H; try discriminate; reflexivity.
Qed.

Lemma updates_keep_flags n d :
  isHovered (Nat.iter n update d) = isHovered d /\
  isDragged (Nat.iter n update d) = isDragged d.
Proof.
  induction n as [| n [IHh IHg]]; simpl; [split; reflexivity |].
  destruct (update_fields (Nat.iter n update d)) as (Eh & Eg & _).
  rewrite Eh, Eg. split; assumption.
Qed.

(** X1.  While the flags do not change, the machine reaches the state the
    flags select after at most two updates and stays there: [DragState] when
    dragged, else [HoverState] when hovered, else [IdleState].  Two updates
    are needed only by a die released from a drag while hovered, which
    passes through [IdleState]. *)
Theorem two_updates_follow_the_flags (d : DiceCrystal) (n : nat) :
  state (Nat.iter (S (S n)) update d)
    = settled (isHovered d) (isDragged d) /\
  (state (update d) <> settled (isHovered d) (isDragged d) ->
   state d = DragState /\ isDragged d = false /\ isHovered d = true).
Proof.
  split.
  - induction n as [| n IH].
    + simpl. destruct (update_fields d) as (Eh & Eg & _).
      destruct (update_reaches_settled_or_idle d) as [E | (Es & Eg' & Eh' & Ei)].
      * rewrite <- Eh, <- Eg. apply update_keeps_settled.
        rewrite Eh, Eg. exact E.
      * rewrite Eg', Eh' in *. simpl.
        destruct (update d) as [st h g m p bp sc bs tr].
        simpl in Eh, Eg, Ei. subst st h g. reflexivity.
    + change (Nat.iter (S (S (S n))) update d)
        with (update (Nat.iter (S (S n)) update d)).
      destruct (updates_keep_flags (S (S n)) d) as [Eh Eg].
      rewrite <- Eh, <- Eg. apply update_keeps_settled.
      rewrite Eh, Eg. exact IH.
  - intros Hne.
    destruct (update_reaches_settled_or_idle d) as [E | (Es & Eg' & Eh' & _)];
      [contradiction | repeat split; assumption].
Qed.

Lemma two_updates_follow_the_flags_witness :
  state (update releasedDie)
    <> settled (isHovered releasedDie) (isDragged releasedDie) /\
  state releasedDie = DragState /\
  state (Nat.iter 2 update releasedDie)
    = settled (isHovered releasedDie) (isDragged releasedDie).
Proof.
  assert (H : state (update releasedDie)
                <> settled (isHovered releasedDie) (isDragged releasedDie))
    by (vm_compute; discriminate).
  split; [exact H |].
  split.
  - exact (proj1 (proj2 (two_updates_follow_the_flags releasedDie 0) H)).
  - exact (proj1 (two_updates_follow_the_flags releasedDie 0)).
Defined.

(** ** What one step adds to the trace *)

Lemma update_transition d :
  (trace (update d) = trace d /\ state (update d) = state d) \/
  (exists s, In (state d, s) table /\
     trace (update d) = trace (setState s d) /\ state (update d) = s).
Proof.
  destruct d as [st h g m p bp sc bs tr].
  destruct st, h, g;
    first [ left; split; reflexivity
          | right; exists DragState;
            solve [split; [simpl; auto 10 | split; reflexivity]]
          | right; exists HoverState;
            solve [split; [simpl; auto 10 | split; reflexivity]]
          | right; exists IdleState;
            solve [split; [simpl; auto 10 | split; reflexivity]] ].
Qed.

Lemma tick_state v d : state (tick v d) = state (update d).
Proof. destruct v; reflexivity. Qed.

Lemma step_transition v d i :
  (trace (step v d i) = trace d /\ state (step v d i) = state d) \/
  (exists s, In (state d, s) table /\
     trace (step v d i) = trace (setState s d) /\ state (step v d i) = s).
Proof.
  destruct i; simpl; try (left; destruct v; split; reflexivity).
  rewrite tick_trace, tick_state. apply update_transition.
Qed.

Lemma count_app (A : Type) (p : A -> bool) (l l' : list A) :
  count p (l ++ l') = (count p l + count p l')%nat.
Proof. unfold count. rewrite filter_app, length_app. reflexivity. Qed.

Lemma setState_counts s d :
  count is_scale_tween (trace (setState s d))
    = S (count is_scale_tween (trace d)) /\
  count is_position_tween (trace (setState s d))
    = (count is_position_tween (trace d)
       + (if is_HoverState (state d) then 1 else 0))%nat /\
  count is_settle_spin (trace (setState s d))
    = (count is_settle_spin (trace d)
       + (if is_DragState (state d) then 1 else 0))%nat /\
  count is_kill (trace (setState s d))
    = (count is_kill (trace d)
       + (if is_DragState s then 2 else 0)
       + (if is_DragState (state d) then 2 else 0))%nat /\
  count is_gsap_call (trace (setState s d))
    = (count is_gsap_call (trace d) + 1
       + (if is_HoverState (state d) then 1 else 0)
       + (if is_DragState (state d) then 3 else 0)
       + (if is_DragState s then 2 else 0))%nat.
Proof.
  destruct d as [st h g m p bp sc bs tr].
  destruct st, s; cbn -[Qred FULL_TURN count];
    rewrite ?count_app; cbn -[Qred FULL_TURN]; repeat split; lia.
Qed.

(** ** Transitions link up and follow the table *)

Lemma linked_app s calls mid calls' final :
  linked s calls mid -> linked mid calls' final ->
  linked s (calls ++ calls') final.
Proof.
  revert s. induction calls as [| [a b] calls IH]; intros s; simpl.
  - intros ->. trivial.
  - intros (Ea & Hin & Hrest) H. repeat split; auto.
Qed.

Lemma linked_in_table s calls final :
  linked s calls final -> Forall (fun c => In c table) calls.
Proof.
  revert s. induction calls as [| [a b] calls IH]; intros s; simpl.
  - constructor.
  - intros (_ & Hin & Hrest). constructor; [exact Hin | exact (IH b Hrest)].
Qed.

Lemma combine_snoc (A B : Type) (l : list A) (l' : list B) a b :
  List.length l = List.length l' ->
  combine (l ++ [a]) (l' ++ [b]) = combine l l' ++ [(a, b)].
Proof.
  revert l'. induction l as [| x l IH]; intros [| y l'] H; simpl in *;
    try discriminate; [reflexivity |].
  rewrite IH; [reflexivity | lia].
Qed.

Lemma new_chained v host : chained (new v host).
Proof. exists [], []. destruct v; repeat split. Qed.

Lemma step_chained v d i : chained d -> chained (step v d i).
Proof.
  intros (ex & en & Hex & Hen & Hlen & Hl).
  destruct (step_transition v d i) as [[Et Es] | (s & Hin & Et & Es)].
  - exists ex, en. rewrite Et, Es. repeat split; assumption.
  - exists (ex ++ [state d]), (en ++ [s]).
    rewrite Et, Es, setState_exits, setState_enters, Hex, Hen.
    split; [reflexivity |]. split; [reflexivity |].
    split; [rewrite !length_app; simpl; lia |].
    rewrite combine_snoc by exact Hlen.
    apply linked_app with (state d); [exact Hl |].
    simpl. repeat split. exact Hin.
Qed.

Lemma run_chained v inputs d : chained d -> chained (run v inputs d).
Proof.
  revert d. induction inputs as [| i inputs IH]; intros d H; simpl.
  - exact H.
  - apply IH, step_chained, H.
Qed.

(** X2.  In the whole life of a die, in either variant, the calls of
    [setState] after the one of the constructor follow the transition table
    (Idle to Drag, Idle to Hover, Hover to Drag, Hover to Idle, Drag to
    Idle), each leaves the state the previous one entered, and the last one
    entered the state the die is in now.  No call goes from [DragState] to
    [HoverState]. *)
Theorem transitions_follow_the_table
        (v : Projection) (host : Host) (inputs : list Input) :
  exists later,
    setState_calls (trace (lifetime v host inputs))
      = (IdleState, IdleState) :: later /\
    linked IdleState later (state (lifetime v host inputs)) /\
    Forall (fun c => In c table) later /\
    ~ In (DragState, HoverState) later.
Proof.
  destruct (run_chained v inputs _ (new_chained v host))
    as (ex & en & Hex & Hen & Hlen & Hl).
  exists (combine ex en). unfold setState_calls.
  change (run v inputs (new v host)) with (lifetime v host inputs) in *.
  rewrite Hex, Hen. split; [reflexivity |]. split; [exact Hl |].
  pose proof (linked_in_table _ _ _ Hl) as Ht.
  split; [exact Ht |].
  intros Hin. rewrite Forall_forall in Ht. specialize (Ht _ Hin).
  simpl in Ht. repeat (destruct Ht as [Ht | Ht]; [discriminate |]).
  exact Ht.
Qed.

(** ** What the trace holds *)

Lemma new_accounted v host : accounted (new v host).
Proof. destruct v; repeat split. Qed.

Lemma step_accounted v d i : accounted d -> accounted (step v d i).
Proof.
  intros (Hs & Hp & Hr & Hk & Hg).
  destruct (step_transition v d i) as [[Et Es] | (s & Hin & Et & Es)].
  - unfold accounted. rewrite Et. repeat split; assumption.
  - destruct (setState_counts s d) as (Cs & Cp & Cr & Ck & Cg).
    unfold accounted.
    rewrite Et, Cs, Cp, Cr, Ck, Cg, setState_exits, setState_enters.
    rewrite !count_app, length_app, Hg, Hs, Hp, Hr, Hk.
    unfold count; simpl.
    destruct (state d), s; simpl; repeat split; lia.
Qed.

Lemma run_accounted v inputs d : accounted d -> accounted (run v inputs d).
Proof.
  revert d. induction inputs as [| i inputs IH]; intros d H; simpl.
  - exact H.
  - apply IH, step_accounted, H.
Qed.

(** X3.  In the whole life of a die the trace holds exactly one scale tween
    for each call of [enter], one tween of the position offset for each
    [exit] from [HoverState], one settle spin for each [exit] from
    [DragState], and two calls of [killTweensOf] for each [enter] into and
    each [exit] from [DragState]; these are all the calls into gsap. *)
Theorem gsap_calls_are_accounted_for
        (v : Projection) (host : Host) (inputs : list Input) :
  let tr := trace (lifetime v host inputs) in
  count is_scale_tween tr = List.length (enters tr) /\
  count is_position_tween tr = count is_HoverState (exits tr) /\
  count is_settle_spin tr = count is_DragState (exits tr) /\
  count is_kill tr
    = (2 * (count is_DragState (enters tr)
            + count is_DragState (exits tr)))%nat /\
  count is_gsap_call tr
    = (count is_scale_tween tr + count is_position_tween tr
       + count is_settle_spin tr + count is_kill tr)%nat.
Proof.
  intros tr. unfold tr, lifetime.
  apply run_accounted, new_accounted.
Qed.

(** * Further properties of the rotation *)

Lemma trunc_fraction (x : Q) :
  (0 <= x -> 0 <= x - inject_Z (Number.trunc x) /\
             x - inject_Z (Number.trunc x) < 1) /\
  (x <= 0 -> -(1) < x - inject_Z (Number.trunc x) /\
             x - inject_Z (Number.trunc x) <= 0).
Proof.
  destruct x as [n d]. unfold Number.trunc; simpl Qnum; simpl Qden.
  pose proof (Z.quot_rem' n (Z.pos d)) as E.
  assert (Hd : (0 < Z.pos d)%Z) by lia.
  split; intros Hx; unfold Qle in Hx; simpl in Hx.
  - assert (Hn : (0 <= n)%Z) by lia.
    pose proof (Z.rem_bound_pos n (Z.pos d) Hn Hd) as B.
    unfold Qle, Qlt, Qminus, Qplus, Qopp, inject_Z; simpl.
    split; nia.
  - assert (Hn : (n <= 0)%Z) by lia.
    pose proof (Z.rem_bound_pos_neg n (Z.pos d) Hd Hn) as Hr.
    unfold Qle, Qlt, Qminus, Qplus, Qopp, inject_Z; simpl.
    split; nia.
Qed.

(** The remainder [p % T] of the model, for a positive [T]: it has the sign
    of [p] and is smaller than [T] in absolute value. *)
Lemma rem_sign (p T : Q) :
  0 < T ->
  exists r, (Fin p mod Fin T)%num = Fin r /\
    (0 <= p -> 0 <= r /\ r < T) /\
    (p <= 0 -> - T < r /\ r <= 0) /\
    (- T < p -> p < 0 -> r = Qred p).
Proof.
  intros HT.
  assert (HTz : Qeq_bool T 0 = false).
  { destruct (Qeq_bool T 0) eqn:E; [| reflexivity].
    apply Qeq_bool_iff in E. lra. }
  cbn [Number.rem]. rewrite HTz. eexists. split; [reflexivity |].
  set (x := p / T).
  assert (Ep : p == T * x) by (unfold x; rewrite Qmult_div_r; [reflexivity | lra]).
  destruct (trunc_fraction x) as [Hpos Hneg].
  split; [| split].
  - intros Hp. rewrite Qred_correct.
    assert (Hx : 0 <= x).
    { unfold x. apply Qle_shift_div_l; [exact HT | lra]. }
    destruct (Hpos Hx) as [F0 F1].
    split; [rewrite Ep at 1 | rewrite Ep at 1]; nra.
  - intros Hp. rewrite Qred_correct.
    assert (Hx : x <= 0).
    { unfold x. apply Qle_shift_div_r; [exact HT | lra]. }
    destruct (Hneg Hx) as [F0 F1].
    split; [rewrite Ep at 1 | rewrite Ep at 1]; nra.
  - intros Hlo Hhi. apply Qred_complete.
    assert (Hx : x <= 0).
    { unfold x. apply Qle_shift_div_r; [exact HT | lra]. }
    assert (Hx1 : -(1) < x).
    { unfold x. apply Qlt_shift_div_l; [exact HT | lra]. }
    assert (E0 : Number.trunc x = 0%Z).
    { destruct (Hneg Hx) as [F0 F1].
      assert (L : inject_Z (-1) < inject_Z (Number.trunc x))
        by (change (inject_Z (-1)) with (-(1)); lra).
      assert (U : inject_Z (Number.trunc x) < inject_Z 1)
        by (change (inject_Z 1) with 1; lra).
      rewrite <- Zlt_Qlt in L, U. lia. }
    rewrite E0. change (inject_Z 0) with 0. lra.
Qed.

Lemma update_rotation d :
  rotation_y (update d) = rotation_step (state d) (rotation_y d).
Proof. destruct d as [st h g m p bp sc bs tr]; destruct st, h, g; reflexivity. Qed.

Lemma tick_rotation v d : rotation_y (tick v d) = rotation_y (update d).
Proof. destruct v; reflexivity. Qed.

Lemma within_a_turn_Fin y :
  within_a_turn y = true <->
  exists q, y = Fin q /\ 0 <= q /\ q < full_turn.
Proof.
  unfold within_a_turn. rewrite FULL_TURN_value. split.
  - intros H. apply andb_prop in H as [H0 HT].
    destruct y as [q | | |]; try discriminate.
    exists q. split; [reflexivity |].
    split; [apply leb_Fin_true, H0 | apply ltb_Fin_true, HT].
  - intros (q & -> & H0 & HT). apply andb_true_intro.
    split; [apply leb_Fin_true, H0 | apply ltb_Fin_true, HT].
Qed.

Lemma rotation_step_within s y :
  within_a_turn y = true -> within_a_turn (rotation_step s y) = true.
Proof.
  intros H. destruct s; simpl; [| exact H |];
    apply within_a_turn_Fin in H as (q & -> & H0 & HT);
    unfold within_a_turn; rewrite FULL_TURN_value;
    [ unfold IDLE_ROTATE_SPEED | unfold DRAG_ROTATE_SPEED ].
  - destruct (rotate_step q (Qred 0.005) full_turn H0 HT) as (B0 & BT & _);
      [reflexivity | reflexivity |].
    rewrite B0, BT. reflexivity.
  - destruct (rotate_step q (Qred 0.04) full_turn H0 HT) as (B0 & BT & _);
      [reflexivity | reflexivity |].
    rewrite B0, BT. reflexivity.
Qed.

Lemma step_within_a_turn v d i :
  rotation_untouched i = true ->
  within_a_turn (rotation_y d) = true ->
  within_a_turn (rotation_y (step v d i)) = true.
Proof.
  intros Hi H. destruct i; simpl in Hi |- *; try discriminate;
    try (destruct v; exact H).
  rewrite tick_rotation, update_rotation. apply rotation_step_within, H.
Qed.

Lemma run_within_a_turn v inputs d :
  forallb rotation_untouched inputs = true ->
  within_a_turn (rotation_y d) = true ->
  within_a_turn (rotation_y (run v inputs d)) = true.
Proof.
  revert d. induction inputs as [| i inputs IH]; intros d Hi Hd; simpl.
  - exact Hd.
  - simpl in Hi. apply andb_prop in Hi as [Hi Hrest].
    apply IH; [exact Hrest | apply step_within_a_turn; assumption].
Qed.

(** X4.  In the whole life of a die, in either variant and whatever the
    flags, the layout changes and the states it goes through, the angle
    [mesh.rotation.y] is in [0, FULL_TURN) as long as no tween has written
    it: the constructor sets it to 0, [IdleState] and [DragState] advance it
    modulo a full turn and [HoverState] leaves it alone. *)
Theorem rotation_stays_within_a_turn
        (v : Projection) (host : Host) (inputs : list Input) :
  forallb rotation_untouched inputs = true ->
  Number.leb (Fin 0) (rotation_y (lifetime v host inputs)) = true /\
  Number.ltb (rotation_y (lifetime v host inputs)) FULL_TURN = true.
Proof.
  intros Hi.
  assert (H0 : within_a_turn (rotation_y (new v host)) = true)
    by (destruct v; reflexivity).
  pose proof (run_within_a_turn v inputs _ Hi H0) as H.
  unfold within_a_turn in H. apply andb_prop in H. exact H.
Qed.

Lemma rotation_stays_within_a_turn_witness :
  forallb rotation_untouched
          [frame; set_isDragged true; frame; frame; set_isDragged false;
           layout_changed centredHost; frame; set_isHovered true; frame]
    = true /\
  Number.ltb
    (rotation_y
       (lifetime perspective sampleHost
          [frame; set_isDragged true; frame; frame; set_isDragged false;
           layout_changed centredHost; frame; set_isHovered true; frame]))
    FULL_TURN = true.
Proof.
  split; [reflexivity |].
  exact (proj2 (rotation_stays_within_a_turn perspective sampleHost
                  [frame; set_isDragged true; frame; frame;
                   set_isDragged false; layout_changed centredHost; frame;
                   set_isHovered true; frame] eq_refl)).
Defined.

Lemma nonnegative_rotation (y s : Q) :
  0 <= y -> 0 < s ->
  let b := ((Fin y + Fin s) mod Fin full_turn)%num in
  Number.leb (Fin 0) b = true /\ Number.ltb b (Fin full_turn) = true.
Proof.
  intros Hy Hs. cbv zeta. cbn [Number.add].
  destruct (rem_sign (Qred (y + s)) full_turn) as (r & Er & Hpos & _);
    [reflexivity |].
  rewrite Er.
  destruct Hpos as [R0 RT]; [rewrite Qred_correct; lra |].
  split; [apply leb_Fin_true, R0 | apply ltb_Fin_true, RT].
Qed.

Lemma negative_rotation (y s : Q) :
  0 < s -> y + s < 0 ->
  let b := ((Fin y + Fin s) mod Fin full_turn)%num in
  Number.leb b (Fin 0) = true /\
  Number.ltb (- Fin full_turn)%num b = true /\
  (Number.ltb (- Fin full_turn)%num (Fin y) = true -> b = (Fin y + Fin s)%num).
Proof.
  intros Hs Hneg. cbv zeta. cbn [Number.add Number.neg].
  destruct (rem_sign (Qred (y + s)) full_turn) as (r & Er & _ & Hn & Hsmall);
    [reflexivity |].
  rewrite Er.
  assert (Hp : Qred (y + s) < 0) by (rewrite Qred_correct; lra).
  destruct Hn as [RT R0]; [lra |].
  split; [apply leb_Fin_true, R0 |].
  split; [apply ltb_Fin_true; rewrite Qred_correct; exact RT |].
  intros Hlo. apply ltb_Fin_true in Hlo. rewrite Qred_correct in Hlo.
  rewrite Hsmall; [| rewrite Qred_correct; lra | exact Hp].
  f_equal. apply Qred_complete, Qred_correct.
Qed.

(** X5.  An update in [IdleState] or [DragState] brings every finite angle
    that is not negative into [0, FULL_TURN), also one beyond a full turn,
    such as a tween can leave. *)
Theorem update_wraps_a_nonnegative_angle (d : DiceCrystal) :
  state d <> HoverState ->
  Number.finite (rotation_y d) = true ->
  Number.leb (Fin 0) (rotation_y d) = true ->
  Number.leb (Fin 0) (rotation_y (update d)) = true /\
  Number.ltb (rotation_y (update d)) FULL_TURN = true.
Proof.
  intros Hs Hf H0. rewrite update_rotation, FULL_TURN_value.
  destruct (rotation_y d) as [y | | |]; try discriminate.
  apply leb_Fin_true in H0.
  destruct (state d); [| contradiction |]; unfold rotation_step;
    rewrite ?FULL_TURN_value.
  - apply (nonnegative_rotation y (Qred 0.005) H0). reflexivity.
  - apply (nonnegative_rotation y (Qred 0.04) H0). reflexivity.
Qed.

Lemma update_wraps_a_nonnegative_angle_witness :
  state (with_rotation_y (Fin 10) (Orthographic.new sampleHost))
    <> HoverState /\
  Number.ltb FULL_TURN
    (rotation_y (with_rotation_y (Fin 10) (Orthographic.new sampleHost)))
    = true /\
  Number.ltb
    (rotation_y (update (with_rotation_y (Fin 10)
                           (Orthographic.new sampleHost))))
    FULL_TURN = true.
Proof.
  assert (Hs : state (with_rotation_y (Fin 10) (Orthographic.new sampleHost))
                 <> HoverState) by (vm_compute; discriminate).
  split; [exact Hs |]. split; [reflexivity |].
  exact (proj2 (update_wraps_a_nonnegative_angle
                  (with_rotation_y (Fin 10) (Orthographic.new sampleHost))
                  Hs eq_refl eq_refl)).
Defined.

(** X6.  The remainder keeps the sign of the dividend, so an update does not
    bring a negative angle into the range: from a finite angle below
    -0.04 the update in [IdleState] or [DragState] gives an angle in
    (-FULL_TURN, 0], and when the angle is above -FULL_TURN it only adds the
    speed of the state. *)
Theorem update_keeps_a_negative_angle (d : DiceCrystal) :
  state d <> HoverState ->
  Number.finite (rotation_y d) = true ->
  Number.ltb (rotation_y d) (- DRAG_ROTATE_SPEED)%num = true ->
  Number.leb (rotation_y (update d)) (Fin 0) = true /\
  Number.ltb (- FULL_TURN)%num (rotation_y (update d)) = true /\
  (Number.ltb (- FULL_TURN)%num (rotation_y d) = true ->
   rotation_y (update d)
     = (rotation_y d + (if is_DragState (state d)
                        then DRAG_ROTATE_SPEED else IDLE_ROTATE_SPEED))%num).
Proof.
  intros Hs Hf Hneg. rewrite update_rotation, FULL_TURN_value.
  destruct (rotation_y d) as [y | | |]; try discriminate.
  change (- DRAG_ROTATE_SPEED)%num with (Fin (Qred (- Qred 0.04))) in Hneg.
  apply ltb_Fin_true in Hneg. rewrite !Qred_correct in Hneg.
  destruct (state d); [| contradiction |]; unfold rotation_step;
    simpl is_DragState; cbv iota; rewrite ?FULL_TURN_value.
  - apply (negative_rotation y (Qred 0.005)); [reflexivity |].
    rewrite Qred_correct; lra.
  - apply (negative_rotation y (Qred 0.04)); [reflexivity |].
    rewrite Qred_correct; lra.
Qed.

Lemma update_keeps_a_negative_angle_witness :
  state (with_rotation_y (Fin (-1)) (Orthographic.new sampleHost))
    <> HoverState /\
  rotation_y (update (with_rotation_y (Fin (-1))
                        (Orthographic.new sampleHost)))
    = (Fin (-1) + IDLE_ROTATE_SPEED)%num /\
  Number.leb
    (rotation_y (update (with_rotation_y (Fin (-1))
                           (Orthographic.new sampleHost))))
    (Fin 0) = true.
Proof.
  assert (Hs : state (with_rotation_y (Fin (-1)) (Orthographic.new sampleHost))
                 <> HoverState) by (vm_compute; discriminate).
  split; [exact Hs |].
  split.
  - exact (proj2 (proj2 (update_keeps_a_negative_angle
                           (with_rotation_y (Fin (-1))
                              (Orthographic.new sampleHost))
                           Hs eq_refl eq_refl)) eq_refl).
  - exact (proj1 (update_keeps_a_negative_angle
                    (with_rotation_y (Fin (-1)) (Orthographic.new sampleHost))
                    Hs eq_refl eq_refl)).
Defined.

(** * Further properties of the synchronizer and of the tick *)

(** ** The depth of the base position *)

Lemma step_base_z d i :
  Vector3.z (_position d) = Fin 0 \/ Vector3.z (_position d) = Fin 400 ->
  Vector3.z (_position (step orthographic d i)) = Fin 0 \/
  Vector3.z (_position (step orthographic d i)) = Fin 400.
Proof.
  intros H. destruct i; simpl; try exact H.
  destruct (update_fields d) as (Eh & Eg & _).
  rewrite Eh, Eg. destruct (isHovered d || isDragged d); auto.
Qed.

Lemma run_base_z inputs d :
  Vector3.z (_position d) = Fin 0 \/ Vector3.z (_position d) = Fin 400 ->
  Vector3.z (_position (run orthographic inputs d)) = Fin 0 \/
  Vector3.z (_position (run orthographic inputs d)) = Fin 400.
Proof.
  revert d. induction inputs as [| i inputs IH]; intros d H; simpl.
  - exact H.
  - apply IH, step_base_z, H.
Qed.

(** X7.  In the orthographic variant the z of the base position is 0 or 400
    throughout the life of a die, whatever the cameras un-project to, and
    right after a tick it is 400 exactly when the die is hovered or
    dragged. *)
Theorem orthographic_base_z_is_0_or_400 (host : Host) (inputs : list Input) :
  let d := lifetime orthographic host inputs in
  (Vector3.z (_position d) = Fin 0 \/ Vector3.z (_position d) = Fin 400) /\
  Vector3.z (_position (Orthographic.tick d)) = selected_z d.
Proof.
  intros d. split.
  - apply run_base_z. left. reflexivity.
  - destruct (update_fields d) as (Eh & Eg & _).
    unfold Orthographic.tick, selected_z; simpl. rewrite Eh, Eg. reflexivity.
Qed.

Lemma step_perspective_base d i :
  _scale d = unit_scale /\ Vector3.z (_position d) = Fin 0 ->
  _scale (step perspective d i) = unit_scale /\
  Vector3.z (_position (step perspective d i)) = Fin 0.
Proof.
  intros [Hs Hz]. destruct i; simpl; try (split; assumption).
  destruct (update_fields d) as (_ & _ & _ & Ep & _ & Es).
  unfold Perspective.tick; simpl. rewrite Ep, Es. split; assumption.
Qed.

Lemma run_perspective_base inputs d :
  _scale d = unit_scale /\ Vector3.z (_position d) = Fin 0 ->
  _scale (run perspective inputs d) = unit_scale /\
  Vector3.z (_position (run perspective inputs d)) = Fin 0.
Proof.
  revert d. induction inputs as [| i inputs IH]; intros d H; simpl.
  - exact H.
  - apply IH, step_perspective_base, H.
Qed.

(** X8.  In the perspective variant nothing writes the base scale or the z
    of the base position: throughout the life of a die the base scale is
    (1, 1, 1) and the base z is 0, whatever the layout rectangles, the flags
    and the tweens. *)
Theorem perspective_base_scale_and_z_are_fixed
        (host : Host) (inputs : list Input) :
  _scale (lifetime perspective host inputs) = unit_scale /\
  Vector3.z (_position (lifetime perspective host inputs)) = Fin 0.
Proof.
  apply run_perspective_base. split; reflexivity.
Qed.

(** ** The lag of the composition *)

Lemma tick_composes_when_z_is_selected d :
  Vector3.z (_position d) = selected_z d ->
  let o := Orthographic.tick d in
  Mesh.position (mesh o) = Vector3.addVectors (_position o) (position o).
Proof.
  intros Hz.
  destruct (update_fields d) as (Eh & Eg & Ep & Ebp & _).
  unfold Orthographic.tick; simpl. rewrite Eh, Eg, Ep, Ebp.
  unfold selected_z in Hz. rewrite <- Hz.
  destruct (_position d); reflexivity.
Qed.

(** X9.  In the orthographic variant the mesh position lags behind the base
    position for one frame only: a tick that follows another tick, with or
    without a re-synchronization in between and with the flags as the first
    tick saw them, leaves the mesh position equal to the base position plus
    the animated offset, z included. *)
Theorem second_tick_composes_in_z (d : DiceCrystal) (host : Host) :
  let again := Orthographic.tick (Orthographic.tick d) in
  let resynced :=
    Orthographic.tick
      (Orthographic.updateTransform host (Orthographic.tick d)) in
  Mesh.position (mesh again)
    = Vector3.addVectors (_position again) (position again) /\
  Mesh.position (mesh resynced)
    = Vector3.addVectors (_position resynced) (position resynced).
Proof.
  destruct (update_fields d) as (Eh & Eg & _).
  split; apply tick_composes_when_z_is_selected;
    unfold selected_z, Orthographic.tick; simpl; rewrite Eh, Eg; reflexivity.
Qed.

(** ** The device coordinates of a centre past the near edges *)

Lemma nonzero_of_positive (w : Q) : 0 < w -> Qeq_bool w 0 = false.
Proof.
  intros H. destruct (Qeq_bool w 0) eqn:E; [| reflexivity].
  apply Qeq_bool_iff in E. lra.
Qed.

Lemma scaled_ndcX_lower (k c l w : Q) :
  0 <= k -> 0 < w -> l <= c ->
  exists q, scaled_ndcX (Fin k) (Fin c) (Fin l) (Fin w) = Fin q /\
            - (1) <= q.
Proof.
  intros Hk Hw Hl.
  unfold scaled_ndcX.
  cbn [Number.sub Number.add Number.neg Number.div Number.mul].
  rewrite (nonzero_of_positive w Hw). eexists. split; [reflexivity |].
  rewrite !Qred_correct.
  assert (F0 : 0 <= (c + - l) / w)
    by (apply Qle_shift_div_l; [exact Hw | lra]).
  set (f := (c + - l) / w) in *. nra.
Qed.

Lemma scaled_ndcY_upper (k c t h : Q) :
  0 <= k -> 0 < h -> t <= c ->
  exists q, scaled_ndcY (Fin k) (Fin c) (Fin t) (Fin h) = Fin q /\
            q <= 1.
Proof.
  intros Hk Hh Ht.
  unfold scaled_ndcY.
  cbn [Number.sub Number.add Number.neg Number.div Number.mul].
  rewrite (nonzero_of_positive h Hh). eexists. split; [reflexivity |].
  rewrite !Qred_correct.
  assert (F0 : 0 <= (c + - t) / h)
    by (apply Qle_shift_div_l; [exact Hh | lra]).
  set (f := (c + - t) / h) in *. nra.
Qed.

Lemma past_the_edge_as_rationals (c l w : number) :
  Number.finite c = true -> Number.finite l = true ->
  Number.ltb (Fin 0) w = true -> Number.finite w = true ->
  Number.leb l c = true ->
  exists c' l' w', c = Fin c' /\ l = Fin l' /\ w = Fin w' /\
    0 < w' /\ l' <= c'.
Proof.
  destruct c as [c' | | |], l as [l' | | |], w as [w' | | |];
    try discriminate.
  intros _ _ Hw _ Hl. exists c', l', w'.
  apply ltb_Fin_true in Hw. apply leb_Fin_true in Hl.
  repeat split; assumption.
Qed.

(** X10.  When the rectangles are finite, the viewport has a positive width
    and the centre of the element is not left of the left edge of the
    viewport, the device x that [updateTransform] computes is at least -1;
    when the viewport has a positive height and the centre is not above its
    top edge, the device y is at most 1.  This holds in both variants,
    whatever the factor: the quotient is not negative, so neither is its
    product by 2 or by 200. *)
Theorem ndc_is_bounded_on_the_near_side (host : Host) :
  let rect := diceDiv_rect host in
  let gridRect := canvas_rect host in
  DOMRect_finite rect = true ->
  DOMRect_finite gridRect = true ->
  Number.ltb (Fin 0) (width gridRect) = true ->
  Number.ltb (Fin 0) (height gridRect) = true ->
  Number.leb (left gridRect) (centerX rect) = true ->
  Number.leb (top gridRect) (centerY rect) = true ->
  (Number.leb (Fin (-1)) (Orthographic.xNDC host) = true /\
   Number.leb (Orthographic.yNDC host) (Fin 1) = true) /\
  (Number.leb (Fin (-1)) (Perspective.xNDC host) = true /\
   Number.leb (Perspective.yNDC host) (Fin 1) = true).
Proof.
  intros rect gridRect Hr Hg Hw Hh Hxl Hyt.
  assert (Hr' := Hr). assert (Hg' := Hg).
  unfold DOMRect_finite in Hr', Hg'.
  apply andb_prop in Hr' as [Hr' Fh]; apply andb_prop in Hr' as [Hr' Fw];
    apply andb_prop in Hr' as [Fl Ft].
  apply andb_prop in Hg' as [Hg' Gh]; apply andb_prop in Hg' as [Hg' Gw];
    apply andb_prop in Hg' as [Gl Gt].
  destruct (past_the_edge_as_rationals
              (centerX rect) (left gridRect) (width gridRect)
              (finite_centre _ _ Fl Fw) Gl Hw Gw Hxl)
    as (cx & gl & gw & Ecx & Egl & Egw & Pw & Pl).
  destruct (past_the_edge_as_rationals
              (centerY rect) (top gridRect) (height gridRect)
              (finite_centre _ _ Ft Fh) Gt Hh Gh Hyt)
    as (cy & gt & gh & Ecy & Egt & Egh & Ph & Pt).
  change (Orthographic.xNDC host)
    with (scaled_ndcX (Fin 2) (centerX rect) (left gridRect) (width gridRect)).
  change (Orthographic.yNDC host)
    with (scaled_ndcY (Fin 2) (centerY rect) (top gridRect) (height gridRect)).
  change (Perspective.xNDC host)
    with (scaled_ndcX (Fin 200) (centerX rect) (left gridRect)
                      (width gridRect)).
  change (Perspective.yNDC host)
    with (scaled_ndcY (Fin 200) (centerY rect) (top gridRect)
                      (height gridRect)).
  rewrite Ecx, Egl, Egw, Ecy, Egt, Egh.
  destruct (scaled_ndcX_lower 2 cx gl gw) as (x & Ex & X0);
    [lra | assumption .. |].
  destruct (scaled_ndcY_upper 2 cy gt gh) as (y & Ey & Y1);
    [lra | assumption .. |].
  destruct (scaled_ndcX_lower 200 cx gl gw) as (x' & Ex' & X0');
    [lra | assumption .. |].
  destruct (scaled_ndcY_upper 200 cy gt gh) as (y' & Ey' & Y1');
    [lra | assumption .. |].
  rewrite Ex, Ey, Ex', Ey'.
  repeat split; apply leb_Fin_true; assumption.
Qed.

Lemma ndc_is_bounded_on_the_near_side_witness :
  DOMRect_finite (diceDiv_rect sampleHost) = true /\
  DOMRect_finite (canvas_rect sampleHost) = true /\
  Number.leb (left (canvas_rect sampleHost))
             (centerX (diceDiv_rect sampleHost)) = true /\
  Number.leb (Fin (-1)) (Orthographic.xNDC sampleHost) = true /\
  Number.leb (Perspective.yNDC sampleHost) (Fin 1) = true.
Proof.
  split; [reflexivity |]. split; [reflexivity |]. split; [reflexivity |].
  pose proof (ndc_is_bounded_on_the_near_side sampleHost
                eq_refl eq_refl eq_refl eq_refl eq_refl eq_refl)
    as [[H _] [_ H']].
  split; [exact H | exact H'].
Defined.

(** * Properties of the grid *)

Lemma renderLoop_frames v once g :
  requested_frames (renderLoop v once g)
    = if once then requested_frames g else S (requested_frames g).
Proof. destruct once; reflexivity. Qed.

Lemma renderLoop_rendered v once g :
  rendered (renderLoop v once g) = rendered g ++ [scene_meshes g].
Proof. destruct once; reflexivity. Qed.

Lemma count_cons (A : Type) (p : A -> bool) (x : A) (l : list A) :
  count p (x :: l) = ((if p x then 1 else 0) + count p l)%nat.
Proof. unfold count. simpl. destruct (p x); reflexivity. Qed.

Lemma grid_step_loop v three g ev :
  requested_frames g = 1%nat ->
  requested_frames (grid_step v three g ev) = 1%nat /\
  List.length (rendered (grid_step v three g ev))
    = (List.length (rendered g)
       + (if is_frame ev then 1 else 0) + (if is_resize ev then 1 else 0))%nat.
Proof.
  intros H. destruct ev; cbn [grid_step is_frame is_resize].
  - rewrite H. rewrite renderLoop_frames, renderLoop_rendered, length_app.
    simpl. split; lia.
  - unfold resize. rewrite renderLoop_frames, renderLoop_rendered, length_app.
    simpl. split; lia.
  - simpl. split; [exact H | lia].
  - simpl. split; [exact H | lia].
  - simpl. split; [exact H | lia].
Qed.

Lemma grid_run_loop v three events g :
  requested_frames g = 1%nat ->
  requested_frames (grid_run v three events g) = 1%nat /\
  List.length (rendered (grid_run v three events g))
    = (List.length (rendered g)
       + count is_frame events + count is_resize events)%nat.
Proof.
  revert g. induction events as [| ev events IH]; intros g H.
  - unfold count; simpl. split; [exact H | lia].
  - change (grid_run v three (ev :: events) g)
      with (grid_run v three events (grid_step v three g ev)).
    destruct (grid_step_loop v three g ev H) as [H1 L1].
    destruct (IH _ H1) as [H2 L2].
    split; [exact H2 |].
    rewrite L2, L1, !count_cons. lia.
Qed.

(** X12.  The render loop neither stops nor multiplies: after the
    constructor and after every sequence of animation frames, resizes,
    registrations, mutations and touches, exactly one callback is waiting in
    [requestAnimationFrame].  A frame asks for the next one; the render
    forced by a resize asks for none. *)
Theorem one_frame_is_always_requested
        (v : Projection) (three : Three) (events : list GridEvent) :
  requested_frames (grid_lifetime v three events) = 1%nat.
Proof.
  unfold grid_lifetime.
  apply (grid_run_loop v three events (DiceGrid_new v three)).
  destruct v; reflexivity.
Qed.

(** X13.  The scene is drawn once by the constructor, once by every
    animation frame and once by every resize, and by nothing else:
    registering a die, a mutation of an element and the flags do not
    draw. *)
Theorem renders_are_frames_and_resizes
        (v : Projection) (three : Three) (events : list GridEvent) :
  List.length (rendered (grid_lifetime v three events))
    = (1 + count is_frame events + count is_resize events)%nat.
Proof.
  unfold grid_lifetime.
  destruct (grid_run_loop v three events (DiceGrid_new v three)) as [_ L];
    [destruct v; reflexivity |].
  rewrite L. destruct v; reflexivity.
Qed.

Lemma updateTransform_mesh v host d : mesh (updateTransform v host d) = mesh d.
Proof. destruct v; reflexivity. Qed.

Lemma map_mesh_resynced v (hosts : Element -> Host)
      (l : list (Element * DiceCrystal)) :
  map (fun ed => mesh (snd ed))
      (map (fun ed => (fst ed, updateTransform v (hosts (fst ed)) (snd ed))) l)
    = map (fun ed => mesh (snd ed)) l.
Proof.
  induction l as [| [e d] l IH]; simpl; [reflexivity |].
  rewrite updateTransform_mesh, IH. reflexivity.
Qed.

(** X14.  The frame forced by a resize draws every mesh as the last tick
    left it.  The handler re-synchronizes every die against the new camera
    and then calls [renderLoop], which renders before it ticks, and only the
    tick moves a mesh: the new base positions reach the meshes after that
    frame has been drawn. *)
Theorem resize_draws_the_meshes_of_the_last_tick
        (v : Projection) (three : Three) (page : Page) (g : DiceGrid) :
  let cam := resized_camera v three (clientWidth page) (clientHeight page) in
  rendered (resize v three page g) = rendered g ++ [scene_meshes g] /\
  dices (resize v three page g)
    = map (fun ed =>
             (fst ed,
              tick v (updateTransform v (host_of page cam (fst ed)) (snd ed))))
          (dices g) /\
  grid_camera (resize v three page g) = cam.
Proof.
  intros cam. unfold resize. rewrite renderLoop_rendered.
  split; [| split].
  - unfold scene_meshes; simpl.
    rewrite (map_mesh_resynced v (fun e => host_of page cam e)). reflexivity.
  - unfold renderLoop; simpl. rewrite map_map. reflexivity.
  - reflexivity.
Qed.

Lemma at_index_length (A : Type) (i : nat) (f : A -> A) (l : list A) :
  List.length (at_index i f l) = List.length l.
Proof.
  revert i. induction l as [| x l IH]; intros [| i]; simpl; auto.
Qed.

Lemma at_index_other (A : Type) (i j : nat) (f : A -> A) (l : list A) :
  j <> i -> nth_error (at_index i f l) j = nth_error l j.
Proof.
  revert i j. induction l as [| x l IH]; intros [| i] [| j] H; simpl; auto.
  - contradiction.
Qed.

Lemma at_index_same (A : Type) (i : nat) (f : A -> A) (l : list A) :
  nth_error (at_index i f l) i = option_map f (nth_error l i).
Proof.
  revert i. induction l as [| x l IH]; intros [| i]; simpl; auto.
Qed.

Lemma at_index_map (A B : Type) (i : nat) (f : A -> A) (h : A -> B)
      (l : list A) :
  (forall x, h (f x) = h x) -> map h (at_index i f l) = map h l.
Proof.
  intros H. revert i. induction l as [| x l IH]; intros [| i]; simpl;
    rewrite ?H, ?IH; reflexivity.
Qed.

(** X15.  A change of the element of one die re-synchronizes that die and
    nothing else: every other die of the grid is left as it is, no die is
    added or removed, no mesh moves, nothing is drawn and no frame is
    requested. *)
Theorem element_mutation_touches_one_die
        (v : Projection) (three : Three) (page : Page) (i : nat)
        (g : DiceGrid) :
  let g' := grid_step v three g (element_mutated page i) in
  List.length (dices g') = List.length (dices g) /\
  (forall j, j <> i -> nth_error (dices g') j = nth_error (dices g) j) /\
  nth_error (dices g') i
    = option_map
        (fun ed =>
           (fst ed,
            updateTransform v (host_of page (grid_camera g) (fst ed)) (snd ed)))
        (nth_error (dices g) i) /\
  scene_meshes g' = scene_meshes g /\
  rendered g' = rendered g /\
  requested_frames g' = requested_frames g.
Proof.
  intros g'. unfold g'; simpl.
  split; [apply at_index_length |].
  split; [intros j Hj; apply at_index_other, Hj |].
  split; [apply at_index_same |].
  split; [| split; reflexivity].
  unfold scene_meshes; simpl. apply at_index_map.
  intros [e d]. simpl. apply updateTransform_mesh.
Qed.

Lemma map_fst_kept (f : Element -> DiceCrystal -> DiceCrystal)
      (l : list (Element * DiceCrystal)) :
  map fst (map (fun ed => (fst ed, f (fst ed) (snd ed))) l) = map fst l.
Proof. rewrite map_map. simpl. reflexivity. Qed.

Lemma grid_step_elements v three g ev :
  map fst (dices (grid_step v three g ev))
    = map fst (dices g) ++ registered [ev].
Proof.
  destruct ev; simpl; rewrite ?app_nil_r.
  - destruct (requested_frames g); [reflexivity |].
    unfold renderLoop; simpl. rewrite map_map. reflexivity.
  - unfold resize, renderLoop; simpl. rewrite !map_map. reflexivity.
  - rewrite map_app. reflexivity.
  - apply at_index_map. reflexivity.
  - apply at_index_map. reflexivity.
Qed.

Lemma registered_cons ev events :
  registered (ev :: events) = registered [ev] ++ registered events.
Proof. destruct ev; reflexivity. Qed.

Lemma grid_run_elements v three events g :
  map fst (dices (grid_run v three events g))
    = map fst (dices g) ++ registered events.
Proof.
  revert g. induction events as [| ev events IH]; intros g.
  - simpl. rewrite app_nil_r. reflexivity.
  - change (grid_run v three (ev :: events) g)
      with (grid_run v three events (grid_step v three g ev)).
    rewrite IH, grid_step_elements, (registered_cons ev events), app_assoc.
    reflexivity.
Qed.

(** X16.  The dice of a grid are bound, in order, to the elements [addDice]
    was called with: a die is never removed, reordered or bound to another
    element.  Every animation frame ticks each of them once, in that order,
    and does nothing else to them. *)
Theorem dices_are_the_registered_elements
        (v : Projection) (three : Three) (events : list GridEvent) :
  let g := grid_lifetime v three events in
  map fst (dices g) = registered events /\
  List.length (dices g) = List.length (registered events) /\
  dices (grid_step v three g animation_frame)
    = map (fun ed => (fst ed, tick v (snd ed))) (dices g).
Proof.
  intros g.
  assert (E : map fst (dices g) = registered events).
  { unfold g, grid_lifetime. rewrite grid_run_elements.
    destruct v; reflexivity. }
  split; [exact E |].
  split; [rewrite <- E, length_map; reflexivity |].
  assert (F : requested_frames g = 1%nat).
  { unfold g, grid_lifetime.
    apply (grid_run_loop v three events (DiceGrid_new v three)).
    destruct v; reflexivity. }
  cbn [grid_step]. rewrite F. reflexivity.
Qed.

(** ** The dice of a grid live the life of a die *)

Lemma run_app v a b d : run v (a ++ b) d = run v b (run v a d).
Proof. unfold run. apply fold_left_app. Qed.

Lemma grid_step_camera v three g ev :
  grid_camera (grid_step v three g ev) = camera_after v three (grid_camera g) ev.
Proof.
  destruct ev; simpl; try reflexivity.
  destruct (requested_frames g); reflexivity.
Qed.

Lemma grid_step_die v three g ev i e d :
  requested_frames g = 1%nat ->
  nth_error (dices g) i = Some (e, d) ->
  nth_error (dices (grid_step v three g ev)) i
    = Some (e, run v (inputs_of_event v three (grid_camera g) e i ev) d).
Proof.
  intros F H. destruct ev; cbn [grid_step inputs_of_event].
  - rewrite F. unfold renderLoop; simpl.
    rewrite nth_error_map, H. reflexivity.
  - unfold resize, renderLoop; simpl.
    rewrite map_map, nth_error_map, H. reflexivity.
  - simpl. rewrite nth_error_app1; [exact H |].
    apply nth_error_Some. rewrite H. discriminate.
  - simpl. destruct (Nat.eqb_spec i0 i) as [-> | Hne].
    + rewrite at_index_same, H. reflexivity.
    + rewrite at_index_other by auto. exact H.
  - simpl. destruct (Nat.eqb_spec i0 i) as [-> | Hne].
    + rewrite at_index_same, H. reflexivity.
    + rewrite at_index_other by auto. exact H.
Qed.

Lemma grid_run_die v three events g i e d :
  requested_frames g = 1%nat ->
  nth_error (dices g) i = Some (e, d) ->
  nth_error (dices (grid_run v three events g)) i
    = Some (e, run v (inputs_for v three (grid_camera g) e i events) d).
Proof.
  revert g d. induction events as [| ev events IH]; intros g d F H.
  - exact H.
  - change (grid_run v three (ev :: events) g)
      with (grid_run v three events (grid_step v three g ev)).
    cbn [inputs_for]. rewrite run_app, <- grid_step_camera.
    apply IH.
    + apply (grid_step_loop v three g ev F).
    + apply grid_step_die; assumption.
Qed.

Lemma inputs_for_untouched (P : Input -> bool) v three cam e i events :
  P frame = true -> (forall host, P (layout_changed host) = true) ->
  forallb P (inputs_for v three cam e i events)
    = forallb (fun t => P (input_of t)) (touches_of i events).
Proof.
  intros Pf Pl. revert cam.
  induction events as [| ev events IH]; intros cam; [reflexivity |].
  cbn [inputs_for touches_of]. rewrite forallb_app, IH.
  destruct ev; cbn [inputs_of_event forallb]; rewrite ?Pf, ?Pl;
    try reflexivity;
    destruct (Nat.eqb i0 i); cbn [forallb]; rewrite ?Pl, ?andb_true_r;
    reflexivity.
Qed.

(** X17.  A die of a grid lives the life of a die, driven by the events of
    the grid.  The die registered by a call of [addDice] is, after any
    further events, the die its constructor made (against the camera the
    grid then had) followed by what those events deliver to it: a tick for
    every animation frame, an [updateTransform] against the resized camera
    and a tick for every resize, an [updateTransform] for every mutation of
    its own element, and the touches addressed to it.  Events addressed to
    other dice deliver nothing to it, so its rotation, or its position
    offset, is written by a tween only if a touch of this die writes it. *)
Theorem dice_of_a_grid_have_a_lifetime
        (v : Projection) (three : Three) (before after : list GridEvent)
        (page : Page) (parent : Element) :
  let g := grid_lifetime v three before in
  let i := List.length (dices g) in
  let inputs := inputs_for v three (grid_camera g) parent i after in
  nth_error
    (dices (grid_lifetime v three (before ++ dice_added page parent :: after)))
    i
    = Some (parent,
            lifetime v (host_of page (grid_camera g) parent) inputs) /\
  forallb rotation_untouched inputs
    = forallb (fun t => rotation_untouched (input_of t)) (touches_of i after) /\
  forallb position_untouched inputs
    = forallb (fun t => position_untouched (input_of t)) (touches_of i after).
Proof.
  intros g i inputs.
  split; [| split; apply inputs_for_untouched; reflexivity].
  assert (F : requested_frames g = 1%nat).
  { unfold g, grid_lifetime.
    apply (grid_run_loop v three before (DiceGrid_new v three)).
    destruct v; reflexivity. }
  unfold grid_lifetime, grid_run. rewrite fold_left_app.
  change (fold_left (grid_step v three) before (DiceGrid_new v three)) with g.
  change (fold_left (grid_step v three) (dice_added page parent :: after) g)
    with (grid_run v three after
            (grid_step v three g (dice_added page parent))).
  assert (H : nth_error
                (dices (grid_step v three g (dice_added page parent))) i
              = Some (parent, new v (host_of page (grid_camera g) parent))).
  { simpl. unfold i. rewrite nth_error_app2, Nat.sub_diag by lia.
    reflexivity. }
  exact (grid_run_die v three after
           (grid_step v three g (dice_added page parent)) i parent
           (new v (host_of page (grid_camera g) parent)) F H).
Qed.

(** * Properties of the shared environment map *)

Lemma LoadCubemap_loaded resolve m t :
  cubeTexture m = Some t -> LoadCubemap resolve m = (t, m).
Proof. intros E. unfold LoadCubemap. rewrite E. reflexivity. Qed.

Lemma LoadCubemap_times_loaded resolve n m t :
  cubeTexture m = Some t ->
  LoadCubemap_times resolve n m = (repeat t n, m).
Proof.
  intros E. induction n as [| n IH]; simpl; [reflexivity |].
  rewrite (LoadCubemap_loaded resolve m t E), IH. reflexivity.
Qed.

(** X18.  [LoadCubemap] loads once.  Whatever the state of the module, the
    first call returns a texture and leaves it in the module, every further
    call returns that same texture, and the loader is called at most once
    in all: exactly once, with the six faces in the order +x, -x, +y, -y,
    +z, -z and the refraction mapping, when the module held no texture, and
    not at all when it held one. *)
Theorem LoadCubemap_loads_once
        (resolve : string -> string) (m : CubeMapModule) (n : nat) :
  let t := fst (LoadCubemap resolve m) in
  let m' := snd (LoadCubemap resolve m) in
  cubeTexture m' = Some t /\
  LoadCubemap_times resolve (S n) m = (repeat t (S n), m') /\
  match cubeTexture m with
  | Some t0 => t = t0 /\ m' = m
  | None =>
      loads m' = loads m ++ [images t] /\
      images t = [resolve "./posx.jpg"; resolve "./negx.jpg";
                  resolve "./posy.jpg"; resolve "./negy.jpg";
                  resolve "./posz.jpg"; resolve "./negz.jpg"] /\
      mapping t = CubeRefractionMapping /\
      texture_id t = List.length (loads m)
  end.
Proof.
  intros t m'.
  assert (E : cubeTexture m' = Some t).
  { unfold t, m', LoadCubemap. destruct (cubeTexture m) eqn:Em; simpl;
      [exact Em | reflexivity]. }
  split; [exact E |]. split.
  - simpl. fold t m'.
    destruct (LoadCubemap resolve m) as [t1 m1] eqn:E1. simpl in t, m'.
    rewrite (LoadCubemap_times_loaded resolve n m1 t1 E). reflexivity.
  - unfold t, m', LoadCubemap. destruct (cubeTexture m) eqn:Em; simpl.
    + split; reflexivity.
    + repeat split.
Qed.

(** * What the states ask of gsap, and what they leave alone *)

Lemma setState_made_by_a_state s d :
  Forall made_by_a_state (trace d) ->
  Forall made_by_a_state (trace (setState s d)).
Proof.
  destruct d as [st h g m p bp sc bs tr]. intros H. simpl in H.
  destruct st, s; cbn -[Qred FULL_TURN made_by_a_state];
    rewrite ?Forall_app; repeat split; try exact H;
    repeat (apply Forall_cons || apply Forall_nil);
    cbn -[Qred FULL_TURN]; intuition reflexivity.
Qed.

Lemma step_made_by_a_state v d i :
  Forall made_by_a_state (trace d) ->
  Forall made_by_a_state (trace (step v d i)).
Proof.
  intros H.
  destruct (step_transition v d i) as [[Et _] | (s & _ & Et & _)];
    rewrite Et; [exact H | apply setState_made_by_a_state, H].
Qed.

Lemma run_made_by_a_state v inputs d :
  Forall made_by_a_state (trace d) ->
  Forall made_by_a_state (trace (run v inputs d)).
Proof.
  revert d. induction inputs as [| i inputs IH]; intros d H; simpl.
  - exact H.
  - apply IH, step_made_by_a_state, H.
Qed.

Lemma step_position_zero v d i :
  position_untouched i = true -> position d = Vector3.zero ->
  position (step v d i) = Vector3.zero.
Proof.
  intros Hi H. destruct i; simpl in Hi |- *; try discriminate;
    try (destruct v; exact H).
  destruct (update_fields d) as (_ & _ & Ep & _).
  destruct v; simpl; rewrite Ep; exact H.
Qed.

Lemma run_position_zero v inputs d :
  forallb position_untouched inputs = true -> position d = Vector3.zero ->
  position (run v inputs d) = Vector3.zero.
Proof.
  revert d. induction inputs as [| i inputs IH]; intros d Hi Hd; simpl.
  - exact Hd.
  - simpl in Hi. apply andb_prop in Hi as [Hi Hrest].
    apply IH; [exact Hrest | apply step_position_zero; assumption].
Qed.

(** X19.  In the whole life of a die every call into gsap is one of these:
    a tween of the scale factor to 1 or 1.1 in 0.4 or to 0.9 in 0.2, the
    same on the three axes; a tween of the y of the position offset to 0 in
    0.2; a tween of the rotation by one full turn in 0.8; a cancellation of
    the tweens of the rotation or of the scale factor.  All tweens ease with
    "power2.out".  The tweens of the position offset are never cancelled and
    no tween moves the offset away from 0. *)
Theorem gsap_is_asked_only_what_the_states_ask
        (v : Projection) (host : Host) (inputs : list Input) :
  Forall made_by_a_state (trace (lifetime v host inputs)) /\
  ~ In (gsap_killTweensOf dice_position) (trace (lifetime v host inputs)).
Proof.
  assert (H : Forall made_by_a_state (trace (lifetime v host inputs))).
  { apply run_made_by_a_state. destruct v; repeat constructor. }
  split; [exact H |].
  intros Hin. rewrite Forall_forall in H. exact (H _ Hin).
Qed.

(** X20.  No code of the die writes the animated position offset: in either
    variant it is (0, 0, 0) from the constructor on, through every frame,
    layout change, flag and state, until a tween writes it. *)
Theorem position_offset_stays_zero
        (v : Projection) (host : Host) (inputs : list Input) :
  forallb position_untouched inputs = true ->
  position (lifetime v host inputs) = Vector3.zero.
Proof.
  intros Hi. apply run_position_zero; [exact Hi |].
  destruct v; reflexivity.
Qed.

Lemma position_offset_stays_zero_witness :
  forallb position_untouched
          [frame; set_isHovered true; frame; set_isHovered false; frame;
           animate_scale unit_scale; layout_changed centredHost; frame]
    = true /\
  position
    (lifetime orthographic sampleHost
       [frame; set_isHovered true; frame; set_isHovered false; frame;
        animate_scale unit_scale; layout_changed centredHost; frame])
    = Vector3.zero.
Proof.
  split; [reflexivity |].
  exact (position_offset_stays_zero orthographic sampleHost
           [frame; set_isHovered true; frame; set_isHovered false; frame;
            animate_scale unit_scale; layout_changed centredHost; frame]
           eq_refl).
Defined.

(** * The grid at work *)

(** A grid with one die, bound to the element whose rectangle is 100 by 100
    at (100, 100), then resized to 800 by 600.  The resize draws the mesh
    where the constructor left it, at the origin with scale 1; the tick that
    follows puts the mesh at the base position, which is the offset of the
    centre of the element, (150, 150), from the centre of the canvas,
    (400, 300), with y pointing up. *)
Example one_die_resized :
  let g := grid_lifetime orthographic flatThree
             [dice_added samplePage 1%nat; grid_resized samplePage] in
  requested_frames g = 1%nat /\
  map (map Mesh.position) (rendered g) = [[]; [Vector3.zero]] /\
  map (map Mesh.scale) (rendered g) = [[]; [unit_scale]] /\
  map (fun ed => _position (snd ed)) (dices g)
    = [Vector3.make (Fin (-250)) (Fin 150) (Fin 0)] /\
  map (fun ed => Mesh.position (mesh (snd ed))) (dices g)
    = [Vector3.make (Fin (-250)) (Fin 150) (Fin 0)] /\
  map (fun ed => _scale (snd ed)) (dices g)
    = [Vector3.make (Fin 40) (Fin 40) (Fin 40)].
Proof. vm_compute. repeat split. Qed.
